(** * descripten: the typed IR (src/ir/ir.hh) and the runtime error
    classes (src/runtime/error.hh), embedded and verified.

    Objects of the C++ classes are values of inductive types whose
    constructors are the dynamic classes; a virtual call is a match on the
    receiver's constructor. An operation the C++ language leaves undefined
    (a [static_cast] to a class the object does not have, a failed
    [assert]) returns [None]. *)

From Stdlib Require Import NArith String Ascii List Bool Lia DecimalString.
From stdpp Require Import base option gmap sets list strings.

Local Open Scope string_scope.

(** ** Helpers on [std::string] *)

(** [std::less<std::string>] is the lexicographic order on bytes. *)
Definition std_less (a b : string) : bool := String.ltb a b.

(** [operator<<] on a [size_t]: the decimal digits. *)
Definition decimal (n : N) : string := NilZero.string_of_uint (N.to_uint n).

Module ir.

(** The UTF-16 [String] of common/string.hh, as its code units. *)
Definition String := list N.

(** *** [Type::Identifier] *)
Inductive Identifier :=
| ID_VOID | ID_BOOLEAN | ID_DOUBLE | ID_STRING
| ID_VALUE | ID_REFERENCE
| ID_ARRAY | ID_POINTER | ID_OPAQUE.

(** The enumerators' values, in declaration order. *)
Definition ordinal (i : Identifier) : N :=
  match i with
  | ID_VOID => 0 | ID_BOOLEAN => 1 | ID_DOUBLE => 2 | ID_STRING => 3
  | ID_VALUE => 4 | ID_REFERENCE => 5
  | ID_ARRAY => 6 | ID_POINTER => 7 | ID_OPAQUE => 8
  end%N.

Definition id_eqb (a b : Identifier) : bool := (ordinal a =? ordinal b)%N.
Definition id_ltb (a b : Identifier) : bool := (ordinal a <? ordinal b)%N.

(** *** [Type] and its subclasses

    [Type_base id] is an object of class [Type] itself, built by the public
    constructor [Type(Identifier)]; the other constructors are objects of
    the four subclasses, whose constructors fix the identifier. *)
Inductive Type_ :=
| Type_base (id_ : Identifier)
| ReferenceType (name_ : String)
| ArrayType (type_ : Type_) (length_ : N)
| PointerType (type_ : Type_)
| OpaqueType (name_ : string).

Definition identifier (t : Type_) : Identifier :=
  match t with
  | Type_base id => id
  | ReferenceType _ => ID_REFERENCE
  | ArrayType _ _ => ID_ARRAY
  | PointerType _ => ID_POINTER
  | OpaqueType _ => ID_OPAQUE
  end.

Definition is_array (t : Type_) : bool := id_eqb (identifier t) ID_ARRAY.
Definition is_pointer (t : Type_) : bool := id_eqb (identifier t) ID_POINTER.
Definition is_opaque (t : Type_) : bool := id_eqb (identifier t) ID_OPAQUE.

(** Modelled from the spec: the interned singletons [Type::_void()],
    ..., [Type::value()] (bodies in ir.cc) are objects of class [Type]
    with the identifier of the primitive. *)
Definition _void : Type_ := Type_base ID_VOID.
Definition boolean : Type_ := Type_base ID_BOOLEAN.
Definition _double : Type_ := Type_base ID_DOUBLE.
Definition string_ : Type_ := Type_base ID_STRING.
Definition value : Type_ := Type_base ID_VALUE.

(** [static_cast<const ArrayType *>(t)]: defined only on an [ArrayType]. *)
Definition cast_ArrayType (t : Type_) : option (Type_ * N) :=
  match t with ArrayType e n => Some (e, n) | _ => None end.

Definition cast_PointerType (t : Type_) : option Type_ :=
  match t with PointerType e => Some e | _ => None end.

Definition cast_OpaqueType (t : Type_) : option string :=
  match t with OpaqueType n => Some n | _ => None end.

(** [Type::equal_to] and its overrides in [ArrayType], [PointerType] and
    [OpaqueType]; [ReferenceType] inherits the base method. *)
Fixpoint equal_to (x rhs : Type_) : option bool :=
  match x with
  | Type_base _ | ReferenceType _ =>
      Some (id_eqb (identifier x) (identifier rhs))
  | ArrayType type_ length_ =>
      if negb (id_eqb (identifier x) (identifier rhs)) then Some false
      else
        match cast_ArrayType rhs with
        | Some (rhs_type, rhs_length) =>
            match equal_to type_ rhs_type with
            | Some b => Some (b && (length_ =? rhs_length)%N)
            | None => None
            end
        | None => None
        end
  | PointerType type_ =>
      if negb (id_eqb (identifier x) (identifier rhs)) then Some false
      else
        match cast_PointerType rhs with
        | Some rhs_type => equal_to type_ rhs_type
        | None => None
        end
  | OpaqueType name_ =>
      if negb (id_eqb (identifier x) (identifier rhs)) then Some false
      else
        match cast_OpaqueType rhs with
        | Some rhs_name => Some (String.eqb name_ rhs_name)
        | None => None
        end
  end.

(** [Type::less_than] and its overrides. *)
Fixpoint less_than (x rhs : Type_) : option bool :=
  match x with
  | Type_base _ | ReferenceType _ =>
      Some (id_ltb (identifier x) (identifier rhs))
  | ArrayType type_ length_ =>
      if negb (id_eqb (identifier x) (identifier rhs))
      then Some (id_ltb (identifier x) (identifier rhs))
      else
        match cast_ArrayType rhs with
        | Some (rhs_type, rhs_length) =>
            match equal_to type_ rhs_type with
            | Some false => less_than type_ rhs_type
            | Some true => Some (length_ <? rhs_length)%N
            | None => None
            end
        | None => None
        end
  | PointerType type_ =>
      if negb (id_eqb (identifier x) (identifier rhs))
      then Some (id_ltb (identifier x) (identifier rhs))
      else
        match cast_PointerType rhs with
        | Some rhs_type => less_than type_ rhs_type
        | None => None
        end
  | OpaqueType name_ =>
      if negb (id_eqb (identifier x) (identifier rhs))
      then Some (id_ltb (identifier x) (identifier rhs))
      else
        match cast_OpaqueType rhs with
        | Some rhs_name => Some (std_less name_ rhs_name)
        | None => None
        end
  end.

(** [Type::as_string] (DEBUG builds) and its overrides; [None] is the
    failed [assert(false)] of the base method. [utf8] is [String::utf8]. *)
Section Printing.
Variable utf8 : String -> string.

Fixpoint as_string (t : Type_) : option string :=
  match t with
  | Type_base id =>
      match id with
      | ID_VOID => Some "void"
      | ID_BOOLEAN => Some "boolean"
      | ID_DOUBLE => Some "double"
      | ID_STRING => Some "string"
      | ID_VALUE => Some "value"
      | ID_REFERENCE => Some "reference"
      | ID_ARRAY | ID_POINTER | ID_OPAQUE => None
      end
  | ReferenceType name_ => Some ("reference(" ++ utf8 name_ ++ ")")
  | ArrayType type_ length_ =>
      match as_string type_ with
      | Some s => Some (s ++ "[" ++ decimal length_ ++ "]")
      | None => None
      end
  | PointerType type_ =>
      match as_string type_ with
      | Some s => Some (s ++ "*")
      | None => None
      end
  | OpaqueType name_ => Some ("opaque " ++ name_)
  end.
End Printing.

(** An object's class matches its identifier, and so for its components:
    the identifiers of the derived types are carried by objects of the
    derived classes only. *)
Fixpoint class_matches (t : Type_) : bool :=
  match t with
  | Type_base id =>
      match id with
      | ID_ARRAY | ID_POINTER | ID_OPAQUE => false
      | _ => true
      end
  | ReferenceType _ | OpaqueType _ => true
  | ArrayType e _ | PointerType e => class_matches e
  end.

(** Lexicographic combination of two comparisons. *)
Definition lex (c d : comparison) : comparison :=
  match c with Eq => d | _ => c end.

(** The order that [less_than] and [equal_to] compute: first by
    identifier ordinal, then by element type and length for arrays,
    pointee for pointers, name for opaque types; the name of a reference
    type is not looked at. *)
Fixpoint type_order (x y : Type_) : comparison :=
  lex (ordinal (identifier x) ?= ordinal (identifier y))%N
    match x, y with
    | ArrayType e n, ArrayType e' n' => lex (type_order e e') (n ?= n')%N
    | PointerType e, PointerType e' => type_order e e'
    | OpaqueType a, OpaqueType b => String.compare a b
    | _, _ => Eq
    end.

(** Equality of the specification: same identifier and same parameters,
    the referred-entity name included. *)
Fixpoint same_type (x y : Type_) : bool :=
  match x, y with
  | Type_base a, Type_base b => id_eqb a b
  | ReferenceType a, ReferenceType b => bool_decide (a = b)
  | ArrayType e n, ArrayType e' n' => same_type e e' && (n =? n')%N
  | PointerType e, PointerType e' => same_type e e'
  | OpaqueType a, OpaqueType b => String.eqb a b
  | _, _ => false
  end.

(** Comparisons compose: [Eq] is neutral and [Lt], [Gt] absorb. *)
Definition comp_trans (c1 c2 c3 : comparison) : Prop :=
  match c1, c2 with
  | Eq, c | c, Eq => c3 = c
  | Lt, Lt => c3 = Lt
  | Gt, Gt => c3 = Gt
  | _, _ => True
  end.

Definition is_Eq (c : comparison) : bool :=
  match c with Eq => true | _ => false end.

Definition is_Lt (c : comparison) : bool :=
  match c with Lt => true | _ => false end.

(** Exactly one of three propositions holds. *)
Definition exactly_one (P Q R : Prop) : Prop :=
  (P /\ ~ Q /\ ~ R) \/ (~ P /\ Q /\ ~ R) \/ (~ P /\ ~ Q /\ R).

(** No [ReferenceType] object occurs in the type. *)
Fixpoint name_free (t : Type_) : bool :=
  match t with
  | Type_base _ | OpaqueType _ => true
  | ReferenceType _ => false
  | ArrayType e _ | PointerType e => name_free e
  end.

(** *** Values: instructions and constants *)

Inductive ValueConstant_Value :=
| VALUE_NOTHING | VALUE_UNDEFINED | VALUE_NULL | VALUE_TRUE | VALUE_FALSE.

(** [InstructionValue ty] is an instruction whose [type()] is [ty]; a
    [double] is kept as its bit pattern. *)
Inductive Value :=
| InstructionValue (ty : Type_)
| ArrayElementConstant (array_ : Value) (index_ : N)
| CalleeConstant
| ReturnConstant
| NullConstant (type_ : Type_)
| BooleanConstant (val_ : bool)
| DoubleConstant (val_ : N)
| StringifiedDoubleConstant (val_ : String)
| StringConstant (val_ : String)
| ValueConstant (val_ : ValueConstant_Value).

(** [Value::type] and its overrides. *)
Fixpoint Value_type (v : Value) : option Type_ :=
  match v with
  | InstructionValue ty => Some ty
  | ArrayElementConstant array_ _ =>
      match Value_type array_ with
      | Some t =>
          match cast_ArrayType t with
          | Some (e, _) => Some e
          | None => None
          end
      | None => None
      end
  | CalleeConstant | ReturnConstant | ValueConstant _ => Some value
  | NullConstant type_ => Some type_
  | BooleanConstant _ => Some boolean
  | DoubleConstant _ | StringifiedDoubleConstant _ => Some _double
  | StringConstant _ => Some string_
  end.

(** The constructor [ArrayElementConstant(array, index)] with its
    assertion. *)
Definition new_ArrayElementConstant (array : Value) (index : N)
  : option Value :=
  match Value_type array with
  | Some t =>
      if is_array t || is_pointer t
      then Some (ArrayElementConstant array index)
      else None
  | None => None
  end.

(** *** Instruction classes

    The concrete classes derived from [Instruction] ([PhiInstruction] is
    declared under [UNUSED]), each with the class it derives from. *)
Inductive InstrClass :=
| ArgumentsObjectInitInstruction | ArgumentsObjectLinkInstruction
| ArrayInstruction | BinaryInstruction | BindExtraInitInstruction
| BindExtraPtrInstruction | CallInstruction | CallKeyedInstruction
| CallKeyedSlowInstruction | CallNamedInstruction | PhiInstruction
| ValueInstruction | BranchInstruction | JumpInstruction
| ReturnInstruction | MemoryAllocInstruction | MemoryStoreInstruction
| MemoryElementPointerInstruction | MetaContextLoadInstruction
| MetaPropertyLoadInstruction | ContextSetStrictInstruction
| ContextEnterCatchInstruction | ContextEnterWithInstruction
| ContextLeaveInstruction | ContextThisInstruction | ContextGetInstruction
| ContextPutInstruction | ContextDeleteInstruction
| ExceptionSaveStateInstruction | ExceptionLoadStateInstruction
| ExceptionSetInstruction | ExceptionClearInstruction
| InitArgumentsInstruction | InitArgumentsObjectInstruction | Declaration
| Link | PropertyDefineDataInstruction | PropertyDefineAccessorInstruction
| PropertyIteratorNewInstruction | PropertyIteratorNextInstruction
| PropertyGetInstruction | PropertyGetSlowInstruction
| PropertyPutInstruction | PropertyPutSlowInstruction
| PropertyDeleteInstruction | PropertyDeleteSlowInstruction
| EsNewArrayInstruction | EsNewFunctionDeclarationInstruction
| EsNewFunctionExpressionInstruction | EsNewObjectInstruction
| EsNewRegexInstruction | EsBinaryInstruction | EsUnaryInstruction.

Inductive BaseClass := Instruction_ | TerminateInstruction | MetaInstruction.

Definition superclass (c : InstrClass) : BaseClass :=
  match c with
  | BranchInstruction | JumpInstruction | ReturnInstruction =>
      TerminateInstruction
  | MetaContextLoadInstruction | MetaPropertyLoadInstruction =>
      MetaInstruction
  | _ => Instruction_
  end.

(** The virtual [is_terminating]: [Instruction] defines it ([false]),
    [TerminateInstruction] overrides it ([true]), [MetaInstruction] and
    the concrete classes inherit it. *)
Definition BaseClass_is_terminating (b : BaseClass) : bool :=
  match b with
  | TerminateInstruction => true
  | Instruction_ | MetaInstruction => false
  end.

Definition is_terminating (c : InstrClass) : bool :=
  BaseClass_is_terminating (superclass c).

(** *** The object store

    Objects live at addresses; [new (GC)] hands out the next free one. *)
Definition ptr := nat.

(** An instruction object: the three terminators with their host block
    and operands, any other instruction with its class (operands left
    out). *)
Inductive Instruction :=
| Br (block_ : ptr) (cond_ : ptr) (true_block_ false_block_ : ptr)
| Jmp (host_ : ptr) (block_ : ptr)
| Ret (block_ : ptr) (val_ : ptr)
| Instr (class_ : InstrClass).

Definition class_of (i : Instruction) : InstrClass :=
  match i with
  | Br _ _ _ _ => BranchInstruction
  | Jmp _ _ => JumpInstruction
  | Ret _ _ => ReturnInstruction
  | Instr c => c
  end.

(** [TerminateInstruction::block]: the hosting block. *)
Definition host (i : Instruction) : option ptr :=
  match i with
  | Br b _ _ _ | Jmp b _ | Ret b _ => Some b
  | Instr _ => None
  end.

(** The blocks an instruction refers to: [true_block], [false_block] of a
    branch, [block] of a jump. *)
Definition targets (i : Instruction) : list ptr :=
  match i with
  | Br _ _ t f => [t; f]
  | Jmp _ b => [b]
  | Ret _ _ | Instr _ => []
  end.

Record Block := mkBlock {
  label_ : string;
  instrs_ : list ptr;
  referrers_ : gset ptr
}.

Record Function := mkFunction {
  is_global_ : bool;
  name_ : string;
  blocks_ : list ptr
}.

Record Heap := mkHeap {
  blocks : gmap ptr Block;
  instructions : gmap ptr Instruction;
  functions : gmap ptr Function;
  next_ : ptr
}.

Definition empty_heap : Heap := mkHeap ∅ ∅ ∅ 0.

(** The non-terminator factories of [Block]. *)
Inductive Factory :=
| push_args_obj_init | push_args_obj_link | push_arr_get | push_arr_put
| push_bin_add | push_bin_sub | push_bin_or | push_bin_eq
| push_bnd_extra_init | push_bnd_extra_ptr | push_call | push_call_keyed
| push_call_keyed_slow | push_call_named | push_call_new | push_mem_alloc
| push_mem_store | push_mem_elm_ptr | push_phi_2 | push_prp_def_data
| push_prp_def_accessor | push_prp_it_new | push_prp_it_next
| push_prp_get | push_prp_get_slow | push_prp_put | push_prp_put_slow
| push_prp_del | push_prp_del_slow | push_val_to_bool | push_val_to_double
| push_val_to_str | push_val_from_bool | push_val_from_double
| push_val_from_str | push_val_is_null | push_val_is_undefined
| push_val_tst_coerc | push_meta_ctx_load | push_meta_prp_load
| push_ctx_set_strict | push_ctx_enter_catch | push_ctx_enter_with
| push_ctx_leave | push_ctx_this | push_ctx_get | push_ctx_put
| push_ctx_del | push_ex_save_state | push_ex_load_state | push_ex_set
| push_ex_clear | push_init_args | push_init_args_obj | push_decl_var
| push_decl_fun | push_decl_prm | push_link_var | push_link_fun
| push_link_prm | push_es_new_arr | push_es_new_fun | push_es_new_fun_expr
| push_es_new_obj | push_es_new_rex | push_es_bin_mul | push_es_bin_div
| push_es_bin_mod | push_es_bin_add | push_es_bin_sub | push_es_bin_ls
| push_es_bin_rss | push_es_bin_rus | push_es_bin_lt | push_es_bin_gt
| push_es_bin_lte | push_es_bin_gte | push_es_bin_in
| push_es_bin_instanceof | push_es_bin_eq | push_es_bin_neq
| push_es_bin_strict_eq | push_es_bin_strict_neq | push_es_bin_bit_and
| push_es_bin_bit_xor | push_es_bin_bit_or | push_es_unary_typeof
| push_es_unary_neg | push_es_unary_bit_not | push_es_unary_log_not.

(** The terminator factories [push_trm_br], [push_trm_jmp] and
    [push_trm_ret] with their arguments. *)
Inductive Terminator :=
| trm_br (cond : ptr) (true_block false_block : ptr)
| trm_jmp (block : ptr)
| trm_ret (val : ptr).

(** Modelled from the spec: the class each non-terminator factory
    instantiates (the factories' bodies are in ir.cc), after the
    instruction categories of the data model. *)
Definition Factory_class (f : Factory) : InstrClass :=
  match f with
  | push_args_obj_init =>
      ArgumentsObjectInitInstruction
  | push_args_obj_link =>
      ArgumentsObjectLinkInstruction
  | push_arr_get | push_arr_put =>
      ArrayInstruction
  | push_bin_add | push_bin_sub | push_bin_or | push_bin_eq =>
      BinaryInstruction
  | push_bnd_extra_init =>
      BindExtraInitInstruction
  | push_bnd_extra_ptr =>
      BindExtraPtrInstruction
  | push_call | push_call_new =>
      CallInstruction
  | push_call_keyed =>
      CallKeyedInstruction
  | push_call_keyed_slow =>
      CallKeyedSlowInstruction
  | push_call_named =>
      CallNamedInstruction
  | push_mem_alloc =>
      MemoryAllocInstruction
  | push_mem_store =>
      MemoryStoreInstruction
  | push_mem_elm_ptr =>
      MemoryElementPointerInstruction
  | push_phi_2 =>
      PhiInstruction
  | push_prp_def_data =>
      PropertyDefineDataInstruction
  | push_prp_def_accessor =>
      PropertyDefineAccessorInstruction
  | push_prp_it_new =>
      PropertyIteratorNewInstruction
  | push_prp_it_next =>
      PropertyIteratorNextInstruction
  | push_prp_get =>
      PropertyGetInstruction
  | push_prp_get_slow =>
      PropertyGetSlowInstruction
  | push_prp_put =>
      PropertyPutInstruction
  | push_prp_put_slow =>
      PropertyPutSlowInstruction
  | push_prp_del =>
      PropertyDeleteInstruction
  | push_prp_del_slow =>
      PropertyDeleteSlowInstruction
  | push_val_to_bool | push_val_to_double | push_val_to_str
  | push_val_from_bool | push_val_from_double | push_val_from_str
  | push_val_is_null | push_val_is_undefined | push_val_tst_coerc =>
      ValueInstruction
  | push_meta_ctx_load =>
      MetaContextLoadInstruction
  | push_meta_prp_load =>
      MetaPropertyLoadInstruction
  | push_ctx_set_strict =>
      ContextSetStrictInstruction
  | push_ctx_enter_catch =>
      ContextEnterCatchInstruction
  | push_ctx_enter_with =>
      ContextEnterWithInstruction
  | push_ctx_leave =>
      ContextLeaveInstruction
  | push_ctx_this =>
      ContextThisInstruction
  | push_ctx_get =>
      ContextGetInstruction
  | push_ctx_put =>
      ContextPutInstruction
  | push_ctx_del =>
      ContextDeleteInstruction
  | push_ex_save_state =>
      ExceptionSaveStateInstruction
  | push_ex_load_state =>
      ExceptionLoadStateInstruction
  | push_ex_set =>
      ExceptionSetInstruction
  | push_ex_clear =>
      ExceptionClearInstruction
  | push_init_args =>
      InitArgumentsInstruction
  | push_init_args_obj =>
      InitArgumentsObjectInstruction
  | push_decl_var | push_decl_fun | push_decl_prm =>
      Declaration
  | push_link_var | push_link_fun | push_link_prm =>
      Link
  | push_es_new_arr =>
      EsNewArrayInstruction
  | push_es_new_fun =>
      EsNewFunctionDeclarationInstruction
  | push_es_new_fun_expr =>
      EsNewFunctionExpressionInstruction
  | push_es_new_obj =>
      EsNewObjectInstruction
  | push_es_new_rex =>
      EsNewRegexInstruction
  | push_es_bin_mul | push_es_bin_div | push_es_bin_mod | push_es_bin_add
  | push_es_bin_sub | push_es_bin_ls | push_es_bin_rss | push_es_bin_rus
  | push_es_bin_lt | push_es_bin_gt | push_es_bin_lte | push_es_bin_gte
  | push_es_bin_in | push_es_bin_instanceof | push_es_bin_eq
  | push_es_bin_neq | push_es_bin_strict_eq | push_es_bin_strict_neq
  | push_es_bin_bit_and | push_es_bin_bit_xor | push_es_bin_bit_or =>
      EsBinaryInstruction
  | push_es_unary_typeof | push_es_unary_neg | push_es_unary_bit_not
  | push_es_unary_log_not =>
      EsUnaryInstruction
  end.

(** *** The builder monad

    A member function reads and updates the store; it returns [None] when
    an assertion fails or a pointer does not lead to an object. *)
Definition M (A : Type) : Type := Heap -> option (A * Heap).

#[global] Instance M_ret : MRet M := fun A x h => Some (x, h).
#[global] Instance M_bind : MBind M := fun A B k m h =>
  match m h with
  | Some (x, h') => k x h'
  | None => None
  end.

Definition fail {A : Type} : M A := fun _ => None.

Definition assert (b : bool) : M unit :=
  fun h => if b then Some (tt, h) else None.

Definition alloc : M ptr := fun h =>
  Some (next_ h,
        mkHeap (blocks h) (instructions h) (functions h) (S (next_ h))).

Definition get_block (b : ptr) : M Block := fun h =>
  match blocks h !! b with Some B => Some (B, h) | None => None end.

Definition put_block (b : ptr) (B : Block) : M unit := fun h =>
  Some (tt, mkHeap (<[b:=B]> (blocks h)) (instructions h) (functions h)
                   (next_ h)).

Definition get_instr (p : ptr) : M Instruction := fun h =>
  match instructions h !! p with Some T => Some (T, h) | None => None end.

Definition put_instr (p : ptr) (T : Instruction) : M unit := fun h =>
  Some (tt, mkHeap (blocks h) (<[p:=T]> (instructions h)) (functions h)
                   (next_ h)).

Definition get_function (f : ptr) : M Function := fun h =>
  match functions h !! f with Some F => Some (F, h) | None => None end.

Definition put_function (f : ptr) (F : Function) : M unit := fun h =>
  Some (tt, mkHeap (blocks h) (instructions h) (<[f:=F]> (functions h))
                   (next_ h)).

(** *** [Block] *)

(** [Block::Block(label)]. *)
Definition new_Block (label : string) : M ptr :=
  b ← alloc; _ ← put_block b (mkBlock label [] ∅); mret b.

(** [Block::empty]. *)
Definition empty (b : ptr) : M bool :=
  B ← get_block b; mret (bool_decide (instrs_ B = [])).

(** [Block::last_instr], with its precondition. *)
Definition last_instr (b : ptr) : M ptr :=
  B ← get_block b;
  match last (instrs_ B) with
  | Some p => mret p
  | None => fail
  end.

(** Modelled from the spec: [Block::add_referrer] (body in ir.cc) inserts
    the instruction into the referrer set. *)
Definition add_referrer (b : ptr) (instr : ptr) : M unit :=
  B ← get_block b;
  put_block b (mkBlock (label_ B) (instrs_ B) ({[instr]} ∪ referrers_ B)).

(** Modelled from the spec: [Block::remove_referrer] (body in ir.cc)
    erases the instruction from the referrer set. *)
Definition remove_referrer (b : ptr) (instr : ptr) : M unit :=
  B ← get_block b;
  put_block b (mkBlock (label_ B) (instrs_ B) (referrers_ B ∖ {[instr]})).

(** The last instruction of the block is a terminator. *)
Definition terminated (b : ptr) : M bool :=
  B ← get_block b;
  match last (instrs_ B) with
  | Some p => T ← get_instr p; mret (is_terminating (class_of T))
  | None => mret false
  end.

(** Modelled from the spec: [Block::push_instr] (body in ir.cc) appends
    the instruction; appending to a block whose last instruction is a
    terminator is a programming error. *)
Definition push_instr (b : ptr) (instr : ptr) : M unit :=
  t ← terminated b;
  _ ← assert (negb t);
  B ← get_block b;
  put_block b (mkBlock (label_ B) (instrs_ B ++ [instr]) (referrers_ B)).

Definition new_Instruction (T : Instruction) : M ptr :=
  p ← alloc; _ ← put_instr p T; mret p.

(** Modelled from the spec: the constructors of [BranchInstruction] and
    [JumpInstruction] (bodies in ir.cc) register the new instruction in
    the referrer sets of their target blocks. *)
Definition new_BranchInstruction (host cond true_block false_block : ptr)
  : M ptr :=
  p ← new_Instruction (Br host cond true_block false_block);
  _ ← add_referrer true_block p;
  _ ← add_referrer false_block p;
  mret p.

Definition new_JumpInstruction (host block : ptr) : M ptr :=
  p ← new_Instruction (Jmp host block);
  _ ← add_referrer block p;
  mret p.

Definition new_ReturnInstruction (host val : ptr) : M ptr :=
  new_Instruction (Ret host val).

(** Modelled from the spec: the factories (bodies in ir.cc) allocate the
    instruction, append it to the block and return it. *)
Definition push_trm_br (b cond true_block false_block : ptr) : M ptr :=
  p ← new_BranchInstruction b cond true_block false_block;
  _ ← push_instr b p;
  mret p.

Definition push_trm_jmp (b block : ptr) : M ptr :=
  p ← new_JumpInstruction b block; _ ← push_instr b p; mret p.

Definition push_trm_ret (b val : ptr) : M ptr :=
  p ← new_ReturnInstruction b val; _ ← push_instr b p; mret p.

Definition push_trm (b : ptr) (t : Terminator) : M ptr :=
  match t with
  | trm_br cond true_block false_block =>
      push_trm_br b cond true_block false_block
  | trm_jmp block => push_trm_jmp b block
  | trm_ret val => push_trm_ret b val
  end.

Definition push (f : Factory) (b : ptr) : M ptr :=
  p ← new_Instruction (Instr (Factory_class f));
  _ ← push_instr b p;
  mret p.

Fixpoint remove_referrers (bs : list ptr) (instr : ptr) : M unit :=
  match bs with
  | [] => mret tt
  | b :: bs' => _ ← remove_referrer b instr; remove_referrers bs' instr
  end.

(** Modelled from the spec: replacing the terminator of a block (no such
    member is declared in ir.hh): the old terminator leaves the referrer
    sets of its targets and the block, then the new one is pushed. *)
Definition replace_terminator (b : ptr) (t : Terminator) : M ptr :=
  old ← last_instr b;
  T ← get_instr old;
  _ ← assert (is_terminating (class_of T));
  _ ← remove_referrers (targets T) old;
  B ← get_block b;
  _ ← put_block b (mkBlock (label_ B) (removelast (instrs_ B))
                           (referrers_ B));
  push_trm b t.

(** *** [Function] *)

(** Modelled from the spec: [Function::Function] (body in ir.cc) creates
    the function with its entry block. *)
Definition new_Function (name : string) (is_global : bool) : M ptr :=
  entry ← new_Block "";
  f ← alloc;
  _ ← put_function f (mkFunction is_global name [entry]);
  mret f.

(** Modelled from the spec: [Function::push_block] (body in ir.cc)
    appends the block. *)
Definition push_block (f : ptr) (block : ptr) : M unit :=
  F ← get_function f;
  put_function f (mkFunction (is_global_ F) (name_ F)
                             (blocks_ F ++ [block])).

(** Modelled from the spec: [Function::last_block] (body in ir.cc)
    returns the last block of the list; [None] is [NULL]. *)
Definition last_block (f : ptr) : M (option ptr) :=
  F ← get_function f; mret (last (blocks_ F)).

(** *** Building

    The calls client code can make on the builder, and a run of them from
    a store; a failing call ends the run. *)
Inductive Call :=
| call_new_Function (name : string) (is_global : bool)
| call_new_Block (label : string)
| call_push_block (f : ptr) (block : ptr)
| call_push (f : Factory) (b : ptr)
| call_push_trm (b : ptr) (t : Terminator)
| call_replace_terminator (b : ptr) (t : Terminator).

Definition call (c : Call) : M unit :=
  match c with
  | call_new_Function name is_global =>
      _ ← new_Function name is_global; mret tt
  | call_new_Block label => _ ← new_Block label; mret tt
  | call_push_block f block => push_block f block
  | call_push f b => _ ← push f b; mret tt
  | call_push_trm b t => _ ← push_trm b t; mret tt
  | call_replace_terminator b t => _ ← replace_terminator b t; mret tt
  end.

Fixpoint run (cs : list Call) (h : Heap) : option Heap :=
  match cs with
  | [] => Some h
  | c :: cs' =>
      match call c h with
      | Some (_, h') => run cs' h'
      | None => None
      end
  end.

(** *** Block shapes *)

Definition instr_terminating (h : Heap) (p : ptr) : bool :=
  match instructions h !! p with
  | Some T => is_terminating (class_of T)
  | None => false
  end.

Definition ends_with_terminator (h : Heap) (l : list ptr) : bool :=
  match last l with
  | Some p => instr_terminating h p
  | None => false
  end.



(** *** Invariants of the store

    What every store built by the builder satisfies: addresses below the
    allocation mark; in a block, a terminator only in last place, hosted
    by that block; referrer sets closed in both directions, every referrer
    sitting in a block; a function with at least one block. *)
Record heap_ok (h : Heap) : Prop := {
  ok_block_bound : forall b B, blocks h !! b = Some B -> b < next_ h;
  ok_instr_bound : forall p T, instructions h !! p = Some T -> p < next_ h;
  ok_shape : forall b B k p,
    blocks h !! b = Some B -> instrs_ B !! k = Some p ->
    exists T, instructions h !! p = Some T /\
      (is_terminating (class_of T) = true ->
       S k = length (instrs_ B) /\ host T = Some b);
  ok_fwd : forall b B p T b',
    blocks h !! b = Some B -> p ∈ instrs_ B ->
    instructions h !! p = Some T -> b' ∈ targets T ->
    exists B', blocks h !! b' = Some B' /\ p ∈ referrers_ B';
  ok_bwd : forall b' B' p,
    blocks h !! b' = Some B' -> p ∈ referrers_ B' ->
    exists T, instructions h !! p = Some T /\ b' ∈ targets T /\
      exists b B, blocks h !! b = Some B /\ p ∈ instrs_ B;
  ok_funs : forall f F, functions h !! f = Some F -> blocks_ F <> []
}.

(** The store after instruction [T], allocated at [p], was appended to
    block [b] and registered with its targets. *)
Definition after_push (b p : ptr) (T : Instruction) (B : Block) (x : ptr)
  : Block :=
  mkBlock (label_ B)
    (if decide (x = b) then instrs_ B ++ [p] else instrs_ B)
    (if decide (x ∈ targets T) then {[p]} ∪ referrers_ B else referrers_ B).

(** What a successful factory call on block [b] does to the store. *)
Record pushed (h h' : Heap) (b p : ptr) (T : Instruction) : Prop := {
  pushed_ptr : p = next_ h;
  pushed_next : next_ h' = S (next_ h);
  pushed_instrs : instructions h' = <[p:=T]> (instructions h);
  pushed_funs : functions h' = functions h;
  pushed_blocks : forall x,
    blocks h' !! x = (fun B => after_push b p T B x) <$> blocks h !! x;
  pushed_open : exists B,
    blocks h !! b = Some B /\ ends_with_terminator h (instrs_ B) = false;
  pushed_host : is_terminating (class_of T) = true -> host T = Some b;
  pushed_targets : forall t, t ∈ targets T -> is_Some (blocks h !! t)
}.

(** The instruction a terminator factory allocates in block [b]. *)
Definition instr_of (b : ptr) (t : Terminator) : Instruction :=
  match t with
  | trm_br c tb fb => Br b c tb fb
  | trm_jmp x => Jmp b x
  | trm_ret v => Ret b v
  end.

(** Store updates. *)
Definition set_block (b : ptr) (B : Block) (h : Heap) : Heap :=
  mkHeap (<[b:=B]> (blocks h)) (instructions h) (functions h) (next_ h).

Definition add_instr (p : ptr) (T : Instruction) (h : Heap) : Heap :=
  mkHeap (blocks h) (<[p:=T]> (instructions h)) (functions h) (S (next_ h)).

(** A store that differs from [h] in its blocks only, block [x] of [h]
    having become [g x B]. *)
Definition blocks_mapped (g : ptr -> Block -> Block) (h h' : Heap) : Prop :=
  instructions h' = instructions h /\ functions h' = functions h /\
  next_ h' = next_ h /\
  forall x, blocks h' !! x = g x <$> blocks h !! x.

(** Block updates. *)
Definition with_instr (i : ptr) (B : Block) : Block :=
  mkBlock (label_ B) (instrs_ B ++ [i]) (referrers_ B).

Definition with_referrer (i : ptr) (B : Block) : Block :=
  mkBlock (label_ B) (instrs_ B) ({[i]} ∪ referrers_ B).

Definition without_referrer (i : ptr) (B : Block) : Block :=
  mkBlock (label_ B) (instrs_ B) (referrers_ B ∖ {[i]}).

Definition without_last (B : Block) : Block :=
  mkBlock (label_ B) (removelast (instrs_ B)) (referrers_ B).

Definition add_block (b : ptr) (label : string) (h : Heap) : Heap :=
  mkHeap (<[b:=mkBlock label [] ∅]> (blocks h)) (instructions h)
         (functions h) (S (next_ h)).

(** Block [x] after the last instruction [old] of block [b], a terminator
    [T], was detached. *)
Definition after_pop (b old : ptr) (T : Instruction) (B : Block) (x : ptr)
  : Block :=
  mkBlock (label_ B)
    (if decide (x = b) then removelast (instrs_ B) else instrs_ B)
    (if decide (x ∈ targets T) then referrers_ B ∖ {[old]} else referrers_ B).



(** A function [f] whose entry block gets [ctx_set_strict] and [ret]. *)
Definition strict_then_ret : list Call :=
  [call_new_Function "f" true;
   call_push push_ctx_set_strict 0;
   call_push_trm 0 (trm_ret 2)].

(** Two blocks, a jump from the first to the second, then the jump
    replaced by a return. *)
Definition jump_then_replace : list Call :=
  [call_new_Function "g" false;
   call_new_Block "exit";
   call_push_block 1 2;
   call_push push_val_to_bool 0;
   call_push_trm 0 (trm_br 3 2 2);
   call_replace_terminator 0 (trm_ret 3)].

(** The stores these calls build from the empty store, and the entry
    block of [f]. *)
Definition strict_then_ret_heap : Heap :=
  Eval vm_compute in default empty_heap (run strict_then_ret empty_heap).

Definition strict_then_ret_entry : Block := mkBlock "" [2; 3] ∅.

Definition jump_then_replace_heap : Heap :=
  Eval vm_compute in default empty_heap (run jump_then_replace empty_heap).

(** The store of [jump_then_replace] before the replacement, the branch
    in place, and its block "exit". *)
Definition branch_heap : Heap :=
  Eval vm_compute in
    default empty_heap (run (take 5 jump_then_replace) empty_heap).

Definition branch_exit : Block := mkBlock "exit" [] {[4]}.

(** *** The predicates of [Type] *)
Definition is_void (t : Type_) : bool := id_eqb (identifier t) ID_VOID.

Definition is_boolean (t : Type_) : bool := id_eqb (identifier t) ID_BOOLEAN.

Definition is_double (t : Type_) : bool := id_eqb (identifier t) ID_DOUBLE.

Definition is_string (t : Type_) : bool := id_eqb (identifier t) ID_STRING.

Definition is_value (t : Type_) : bool := id_eqb (identifier t) ID_VALUE.

Definition is_reference (t : Type_) : bool :=
  id_eqb (identifier t) ID_REFERENCE.

(** The nine predicates, in the order of their declaration. *)
Definition Type_predicates (t : Type_) : list bool :=
  [is_void t; is_boolean t; is_double t; is_string t; is_value t;
   is_reference t; is_array t; is_pointer t; is_opaque t].

(** The functors [Type::equal_to] and [Type::less]. *)
Definition Type_equal_to (x y : Type_) : option bool := equal_to x y.

Definition Type_less (x y : Type_) : option bool := less_than x y.

(** *** Visitors

    The member functions of [Instruction::Visitor]. *)
Inductive Instruction_Visitor :=
| visit_instr_args_obj_init | visit_instr_args_obj_link | visit_instr_arr
| visit_instr_bin | visit_instr_bnd_extra_init | visit_instr_bnd_extra_ptr
| visit_instr_call | visit_instr_call_keyed | visit_instr_call_keyed_slow
| visit_instr_call_named | visit_instr_val | visit_instr_br
| visit_instr_jmp | visit_instr_ret | visit_instr_mem_alloc
| visit_instr_mem_store | visit_instr_mem_elm_ptr
| visit_instr_ctx_set_strict | visit_instr_ctx_enter_catch
| visit_instr_ctx_enter_with | visit_instr_ctx_leave
| visit_instr_ctx_this | visit_instr_ctx_get | visit_instr_ctx_put
| visit_instr_ctx_del | visit_instr_ex_save_state
| visit_instr_ex_load_state | visit_instr_ex_set | visit_instr_ex_clear
| visit_instr_init_args | visit_instr_init_args_obj | visit_instr_decl
| visit_instr_link | visit_instr_prp_def_data
| visit_instr_prp_def_accessor | visit_instr_prp_it_new
| visit_instr_prp_it_next | visit_instr_prp_get | visit_instr_prp_get_slow
| visit_instr_prp_put | visit_instr_prp_put_slow | visit_instr_prp_del
| visit_instr_prp_del_slow | visit_instr_es_new_arr
| visit_instr_es_new_fun_decl | visit_instr_es_new_fun_expr
| visit_instr_es_new_obj | visit_instr_es_new_rex | visit_instr_es_bin
| visit_instr_es_unary.

(** The class each member function of [Instruction::Visitor] takes. *)
Definition Instruction_Visitor_class (m : Instruction_Visitor)
  : InstrClass :=
  match m with
  | visit_instr_args_obj_init => ArgumentsObjectInitInstruction
  | visit_instr_args_obj_link => ArgumentsObjectLinkInstruction
  | visit_instr_arr => ArrayInstruction
  | visit_instr_bin => BinaryInstruction
  | visit_instr_bnd_extra_init => BindExtraInitInstruction
  | visit_instr_bnd_extra_ptr => BindExtraPtrInstruction
  | visit_instr_call => CallInstruction
  | visit_instr_call_keyed => CallKeyedInstruction
  | visit_instr_call_keyed_slow => CallKeyedSlowInstruction
  | visit_instr_call_named => CallNamedInstruction
  | visit_instr_val => ValueInstruction
  | visit_instr_br => BranchInstruction
  | visit_instr_jmp => JumpInstruction
  | visit_instr_ret => ReturnInstruction
  | visit_instr_mem_alloc => MemoryAllocInstruction
  | visit_instr_mem_store => MemoryStoreInstruction
  | visit_instr_mem_elm_ptr => MemoryElementPointerInstruction
  | visit_instr_ctx_set_strict => ContextSetStrictInstruction
  | visit_instr_ctx_enter_catch => ContextEnterCatchInstruction
  | visit_instr_ctx_enter_with => ContextEnterWithInstruction
  | visit_instr_ctx_leave => ContextLeaveInstruction
  | visit_instr_ctx_this => ContextThisInstruction
  | visit_instr_ctx_get => ContextGetInstruction
  | visit_instr_ctx_put => ContextPutInstruction
  | visit_instr_ctx_del => ContextDeleteInstruction
  | visit_instr_ex_save_state => ExceptionSaveStateInstruction
  | visit_instr_ex_load_state => ExceptionLoadStateInstruction
  | visit_instr_ex_set => ExceptionSetInstruction
  | visit_instr_ex_clear => ExceptionClearInstruction
  | visit_instr_init_args => InitArgumentsInstruction
  | visit_instr_init_args_obj => InitArgumentsObjectInstruction
  | visit_instr_decl => Declaration
  | visit_instr_link => Link
  | visit_instr_prp_def_data => PropertyDefineDataInstruction
  | visit_instr_prp_def_accessor => PropertyDefineAccessorInstruction
  | visit_instr_prp_it_new => PropertyIteratorNewInstruction
  | visit_instr_prp_it_next => PropertyIteratorNextInstruction
  | visit_instr_prp_get => PropertyGetInstruction
  | visit_instr_prp_get_slow => PropertyGetSlowInstruction
  | visit_instr_prp_put => PropertyPutInstruction
  | visit_instr_prp_put_slow => PropertyPutSlowInstruction
  | visit_instr_prp_del => PropertyDeleteInstruction
  | visit_instr_prp_del_slow => PropertyDeleteSlowInstruction
  | visit_instr_es_new_arr => EsNewArrayInstruction
  | visit_instr_es_new_fun_decl => EsNewFunctionDeclarationInstruction
  | visit_instr_es_new_fun_expr => EsNewFunctionExpressionInstruction
  | visit_instr_es_new_obj => EsNewObjectInstruction
  | visit_instr_es_new_rex => EsNewRegexInstruction
  | visit_instr_es_bin => EsBinaryInstruction
  | visit_instr_es_unary => EsUnaryInstruction
  end.

(** [accept] of each instruction class: the visitor's member functions it
    calls, in order. [MetaInstruction::accept] has an empty body and the
    two meta classes inherit it; [PhiInstruction] declares no [accept]
    and leaves it pure virtual ([None]). *)
Definition Instruction_accept (c : InstrClass)
  : option (list Instruction_Visitor) :=
  match c with
  | ArgumentsObjectInitInstruction => Some [visit_instr_args_obj_init]
  | ArgumentsObjectLinkInstruction => Some [visit_instr_args_obj_link]
  | ArrayInstruction => Some [visit_instr_arr]
  | BinaryInstruction => Some [visit_instr_bin]
  | BindExtraInitInstruction => Some [visit_instr_bnd_extra_init]
  | BindExtraPtrInstruction => Some [visit_instr_bnd_extra_ptr]
  | CallInstruction => Some [visit_instr_call]
  | CallKeyedInstruction => Some [visit_instr_call_keyed]
  | CallKeyedSlowInstruction => Some [visit_instr_call_keyed_slow]
  | CallNamedInstruction => Some [visit_instr_call_named]
  | ValueInstruction => Some [visit_instr_val]
  | BranchInstruction => Some [visit_instr_br]
  | JumpInstruction => Some [visit_instr_jmp]
  | ReturnInstruction => Some [visit_instr_ret]
  | MemoryAllocInstruction => Some [visit_instr_mem_alloc]
  | MemoryStoreInstruction => Some [visit_instr_mem_store]
  | MemoryElementPointerInstruction => Some [visit_instr_mem_elm_ptr]
  | ContextSetStrictInstruction => Some [visit_instr_ctx_set_strict]
  | ContextEnterCatchInstruction => Some [visit_instr_ctx_enter_catch]
  | ContextEnterWithInstruction => Some [visit_instr_ctx_enter_with]
  | ContextLeaveInstruction => Some [visit_instr_ctx_leave]
  | ContextThisInstruction => Some [visit_instr_ctx_this]
  | ContextGetInstruction => Some [visit_instr_ctx_get]
  | ContextPutInstruction => Some [visit_instr_ctx_put]
  | ContextDeleteInstruction => Some [visit_instr_ctx_del]
  | ExceptionSaveStateInstruction => Some [visit_instr_ex_save_state]
  | ExceptionLoadStateInstruction => Some [visit_instr_ex_load_state]
  | ExceptionSetInstruction => Some [visit_instr_ex_set]
  | ExceptionClearInstruction => Some [visit_instr_ex_clear]
  | InitArgumentsInstruction => Some [visit_instr_init_args]
  | InitArgumentsObjectInstruction => Some [visit_instr_init_args_obj]
  | Declaration => Some [visit_instr_decl]
  | Link => Some [visit_instr_link]
  | PropertyDefineDataInstruction => Some [visit_instr_prp_def_data]
  | PropertyDefineAccessorInstruction => Some [visit_instr_prp_def_accessor]
  | PropertyIteratorNewInstruction => Some [visit_instr_prp_it_new]
  | PropertyIteratorNextInstruction => Some [visit_instr_prp_it_next]
  | PropertyGetInstruction => Some [visit_instr_prp_get]
  | PropertyGetSlowInstruction => Some [visit_instr_prp_get_slow]
  | PropertyPutInstruction => Some [visit_instr_prp_put]
  | PropertyPutSlowInstruction => Some [visit_instr_prp_put_slow]
  | PropertyDeleteInstruction => Some [visit_instr_prp_del]
  | PropertyDeleteSlowInstruction => Some [visit_instr_prp_del_slow]
  | EsNewArrayInstruction => Some [visit_instr_es_new_arr]
  | EsNewFunctionDeclarationInstruction => Some [visit_instr_es_new_fun_decl]
  | EsNewFunctionExpressionInstruction => Some [visit_instr_es_new_fun_expr]
  | EsNewObjectInstruction => Some [visit_instr_es_new_obj]
  | EsNewRegexInstruction => Some [visit_instr_es_new_rex]
  | EsBinaryInstruction => Some [visit_instr_es_bin]
  | EsUnaryInstruction => Some [visit_instr_es_unary]
  | MetaContextLoadInstruction | MetaPropertyLoadInstruction => Some []
  | PhiInstruction => None
  end.

(** [Instruction::Visitor::visit(instr)] is [instr->accept(this)]. *)
Definition Instruction_Visitor_visit (c : InstrClass)
  : option (list Instruction_Visitor) :=
  Instruction_accept c.

(** The member functions of [Constant::Visitor]. *)
Inductive Constant_Visitor :=
| visit_const_arr_elm | visit_const_callee | visit_const_ret
| visit_const_null | visit_const_bool | visit_const_double
| visit_const_strdouble | visit_const_str | visit_const_val.

(** [Value::is_constant] and its override in [Constant]. *)
Definition is_constant (v : Value) : bool :=
  match v with
  | InstructionValue _ => false
  | _ => true
  end.

(** [accept] of each constant class; an instruction is no [Constant]. *)
Definition Constant_accept (v : Value) : option Constant_Visitor :=
  match v with
  | InstructionValue _ => None
  | ArrayElementConstant _ _ => Some visit_const_arr_elm
  | CalleeConstant => Some visit_const_callee
  | ReturnConstant => Some visit_const_ret
  | NullConstant _ => Some visit_const_null
  | BooleanConstant _ => Some visit_const_bool
  | DoubleConstant _ => Some visit_const_double
  | StringifiedDoubleConstant _ => Some visit_const_strdouble
  | StringConstant _ => Some visit_const_str
  | ValueConstant _ => Some visit_const_val
  end.

(** An element constant for each index in turn, innermost first. *)
Fixpoint elements_at (indices : list N) (v : Value) : Value :=
  match indices with
  | [] => v
  | i :: indices' => elements_at indices' (ArrayElementConstant v i)
  end.

(** The array type with the given lengths, outermost first. *)
Fixpoint arrays_of (lengths : list N) (e : Type_) : Type_ :=
  match lengths with
  | [] => e
  | n :: lengths' => ArrayType (arrays_of lengths' e) n
  end.

(** The constructors' assertions along [elements_at] all hold. *)
Fixpoint elements_asserted (indices : list N) (v : Value) : bool :=
  match indices with
  | [] => true
  | i :: indices' =>
      match new_ArrayElementConstant v i with
      | Some c => elements_asserted indices' c
      | None => false
      end
  end.

(** *** The order of the specification

    The lexicographic order on the code units of a [String]. *)
Fixpoint String_compare (a b : String) : comparison :=
  match a, b with
  | [], [] => Eq
  | [], _ :: _ => Lt
  | _ :: _, [] => Gt
  | c :: a', d :: b' => lex (c ?= d)%N (String_compare a' b')
  end.

(** First by identifier ordinal, then structurally: referred-entity name
    for reference types, element type before length for arrays, pointee
    for pointers, name for opaque types. *)
Fixpoint structural_order (x y : Type_) : comparison :=
  lex (ordinal (identifier x) ?= ordinal (identifier y))%N
    match x, y with
    | ReferenceType a, ReferenceType b => String_compare a b
    | ArrayType e n, ArrayType e' n' =>
        lex (structural_order e e') (n ?= n')%N
    | PointerType e, PointerType e' => structural_order e e'
    | OpaqueType a, OpaqueType b => String.compare a b
    | _, _ => Eq
    end.

(** *** Modules and reachable blocks *)












(** Every instruction of the store sits in one block, at one place. *)
Definition placed_once (h : Heap) : Prop :=
  forall b1 B1 k1 b2 B2 k2 p,
    blocks h !! b1 = Some B1 -> instrs_ B1 !! k1 = Some p ->
    blocks h !! b2 = Some B2 -> instrs_ B2 !! k2 = Some p ->
    b1 = b2 /\ k1 = k2.

End ir.

(** ** The runtime error classes (src/runtime/error.hh) *)
Module runtime.

Definition EsString := string.

(** The macro [_ESTR]: the string of a literal. *)
Definition _ESTR (s : string) : EsString := s.

(** The error classes: [EsError] and the six instances of
    [EsNativeError<T>]. *)
Inductive ErrorClass :=
| EsError | EsEvalError | EsRangeError | EsReferenceError
| EsSyntaxError | EsTypeError | EsUriError.

Definition ErrorClasses : list ErrorClass :=
  [EsError; EsEvalError; EsRangeError; EsReferenceError;
   EsSyntaxError; EsTypeError; EsUriError].

(** An error object: its class and the members [name_], [message_]. *)
Record EsErrorObject := mkEsError {
  class_ : ErrorClass;
  name_ : EsString;
  message_ : EsString
}.

(** [EsError::name] and [EsError::message]. *)
Definition name (e : EsErrorObject) : EsString := name_ e.
Definition message (e : EsErrorObject) : EsString := message_ e.

(** Modelled from the spec: the protected constructor
    [EsError(name, message)] and the constructor
    [EsNativeError<T>(name, message)] (bodies in error.cc) keep the name
    and the message. *)
Definition new_EsError_named (T : ErrorClass) (name message : EsString)
  : EsErrorObject :=
  mkEsError T name message.

Definition new_EsNativeError (T : ErrorClass) (name message : EsString)
  : EsErrorObject :=
  new_EsError_named T name message.

(** Modelled from the spec: the private constructor [EsError(message)]
    (body in error.cc) of the generic error. *)
Definition new_EsError (message : EsString) : EsErrorObject :=
  new_EsError_named EsError (_ESTR "Error") message.

(** The constructors of the six native error classes. *)
Definition new_EsEvalError (message : EsString) : EsErrorObject :=
  new_EsNativeError EsEvalError (_ESTR "EvalError") message.

Definition new_EsRangeError (message : EsString) : EsErrorObject :=
  new_EsNativeError EsRangeError (_ESTR "RangeError") message.

Definition new_EsReferenceError (message : EsString) : EsErrorObject :=
  new_EsNativeError EsReferenceError (_ESTR "ReferenceError") message.

Definition new_EsSyntaxError (message : EsString) : EsErrorObject :=
  new_EsNativeError EsSyntaxError (_ESTR "SyntaxError") message.

Definition new_EsTypeError (message : EsString) : EsErrorObject :=
  new_EsNativeError EsTypeError (_ESTR "TypeError") message.

Definition new_EsUriError (message : EsString) : EsErrorObject :=
  new_EsNativeError EsUriError (_ESTR "URIError") message.

(** Modelled from the spec: [T::create_inst(message)] (body in error.cc)
    constructs an instance of [T] from the message. *)
Definition create_inst (T : ErrorClass) (message : EsString)
  : EsErrorObject :=
  match T with
  | EsError => new_EsError message
  | EsEvalError => new_EsEvalError message
  | EsRangeError => new_EsRangeError message
  | EsReferenceError => new_EsReferenceError message
  | EsSyntaxError => new_EsSyntaxError message
  | EsTypeError => new_EsTypeError message
  | EsUriError => new_EsUriError message
  end.

(** Modelled from the spec: values, contexts and the context stack
    (context.hh and object.hh are not part of the sources): a context has
    a pending-exception slot holding nothing or a value; the top of the
    stack is the head of the list. *)
Inductive EsValue :=
| nothing
| from_obj (o : EsErrorObject).

Record EsContext := mkEsContext {
  pending_exception_ : EsValue
}.

Definition EsContextStack := list EsContext.

Definition set_pending_exception (e : EsValue) (ctx : EsContext)
  : EsContext :=
  mkEsContext e.

(** [EsContextStack::top] is undefined on an empty stack. *)
Definition top (s : EsContextStack) : option EsContext := head s.

(** [es_throw<T>(message)] of a release build: [None] when there is no
    topmost context, otherwise the stack after the call has returned. *)
Definition es_throw (T : ErrorClass) (message : EsString)
  (s : EsContextStack) : option EsContextStack :=
  let e := from_obj (create_inst T message) in
  match s with
  | [] => None
  | ctx :: rest => Some (set_pending_exception e ctx :: rest)
  end.

(** [es_throw<T>(file, line, orig_message)] of a DEBUG build, with
    [EsStringBuilder::sprintf("[%s:%d] %S", ...)]. *)
Definition es_throw_debug (T : ErrorClass) (file : string) (line : N)
  (orig_message : EsString) (s : EsContextStack) : option EsContextStack :=
  let message :=
    "[" ++ file ++ ":" ++ decimal line ++ "] " ++ orig_message in
  es_throw T message s.

(** The macro [ES_THROW(type, msg)]: the DEBUG build passes [__FILE__]
    and [__LINE__] along. *)
Definition ES_THROW (DEBUG : bool) (file : string) (line : N)
  (type : ErrorClass) (msg : EsString) (s : EsContextStack)
  : option EsContextStack :=
  if DEBUG then es_throw_debug type file line msg s
  else es_throw type msg s.

(** The pending exception of the topmost context. *)
Definition pending (s : EsContextStack) : option EsValue :=
  pending_exception_ <$> top s.

End runtime.

(** ** The value-returning AST visitors (src/parser/visitor.hh) *)
Module parser.

(** The node classes of the AST, one for each member function of
    [Visitor]. *)
Inductive Kind :=
| binary_expr | unary_expr | assign_expr | cond_expr | prop_expr
| call_expr | call_new_expr | regular_expr | fun_expr
| this_lit | ident_lit | null_lit | bool_lit | num_lit | str_lit
| fun_lit | var_lit | array_lit | obj_lit | nothing_lit
| empty_stmt | expr_stmt | block_stmt | if_stmt | do_while_stmt
| while_stmt | for_in_stmt | for_stmt | cont_stmt | break_stmt
| ret_stmt | with_stmt | switch_stmt | throw_stmt | try_stmt | dbg_stmt.

(** The body of a [parse_...] member function a subclass implements: it
    returns a value, after any number of calls of the protected [parse]
    on nodes of its choice. *)
Inductive Body (Node T P : Type) :=
| Return (t : T)
| Parse (node : Node) (param : P) (k : T -> Body Node T P).

Arguments Return {Node T P} t.
Arguments Parse {Node T P} node param k.

Section ValueVisitor1.
Context {Node T P : Type}.

(** The class of a node, and the subclass's [parse_binary_expr], ...,
    [parse_dbg_stmt], by the class they handle. *)
Variable kind : Node -> Kind.
Variable parse_ : Kind -> Node -> P -> Body Node T P.

(** The members [value_] and [param_] of [ValueVisitor1<T, P>]. *)
Record ValueVisitor1 := mkValueVisitor1 {
  value_ : T;
  param_ : P
}.

(** Runs a body, [parse] being given. *)
Fixpoint run_body
  (parse : Node -> P -> ValueVisitor1 -> option (T * ValueVisitor1))
  (b : Body Node T P) (this : ValueVisitor1)
  : option (T * ValueVisitor1) :=
  match b with
  | Return t => Some (t, this)
  | Parse node param k =>
      match parse node param this with
      | Some (t, this') => run_body parse (k t) this'
      | None => None
      end
  end.

(** The private [visit_binary_expr], ..., [visit_dbg_stmt]:
    [value_ = parse_...(node, param_)]. *)
Definition visit_
  (parse : Node -> P -> ValueVisitor1 -> option (T * ValueVisitor1))
  (k : Kind) (node : Node) (this : ValueVisitor1)
  : option ValueVisitor1 :=
  match run_body parse (parse_ k node (param_ this)) this with
  | Some (t, this') => Some (mkValueVisitor1 t (param_ this'))
  | None => None
  end.

(** Modelled from the spec: [Visitor::visit] (body in visitor.cc) is the
    double dispatch on the class of the node. *)
Definition visit
  (parse : Node -> P -> ValueVisitor1 -> option (T * ValueVisitor1))
  (node : Node) (this : ValueVisitor1) : option ValueVisitor1 :=
  visit_ parse (kind node) node this.

(** [ValueVisitor1::parse(node, param)]: [param_ = param; visit(node);
    return value_]. The fuel bounds the depth of nested calls. *)
Fixpoint parse (fuel : nat) (node : Node) (param : P)
  (this : ValueVisitor1) : option (T * ValueVisitor1) :=
  match fuel with
  | 0 => None
  | S fuel' =>
      let this1 := mkValueVisitor1 (value_ this) param in
      match visit (parse fuel') node this1 with
      | Some this2 => Some (value_ this2, this2)
      | None => None
      end
  end.

(** The value of a body and of a node when every [parse] hands its
    parameter and its result over directly, with no members in between. *)
Fixpoint body_value (value : Node -> P -> option T) (b : Body Node T P)
  : option T :=
  match b with
  | Return t => Some t
  | Parse node param k =>
      match value node param with
      | Some t => body_value value (k t)
      | None => None
      end
  end.

Fixpoint node_value (fuel : nat) (node : Node) (param : P) : option T :=
  match fuel with
  | 0 => None
  | S fuel' =>
      body_value (node_value fuel') (parse_ (kind node) node param)
  end.

End ValueVisitor1.

(** [ValueVisitor<T>]: the same without a parameter. *)
Section ValueVisitor.
Context {Node T : Type}.

Variable kind : Node -> Kind.
Variable parse_ : Kind -> Node -> Body Node T unit.

Record ValueVisitor := mkValueVisitor {
  ValueVisitor_value_ : T
}.

Fixpoint ValueVisitor_run_body
  (parse : Node -> ValueVisitor -> option (T * ValueVisitor))
  (b : Body Node T unit) (this : ValueVisitor)
  : option (T * ValueVisitor) :=
  match b with
  | Return t => Some (t, this)
  | Parse node _ k =>
      match parse node this with
      | Some (t, this') => ValueVisitor_run_body parse (k t) this'
      | None => None
      end
  end.

(** [visit_...]: [value_ = parse_...(node)]. *)
Definition ValueVisitor_visit_
  (parse : Node -> ValueVisitor -> option (T * ValueVisitor))
  (k : Kind) (node : Node) (this : ValueVisitor) : option ValueVisitor :=
  match ValueVisitor_run_body parse (parse_ k node) this with
  | Some (t, _) => Some (mkValueVisitor t)
  | None => None
  end.

(** [ValueVisitor::parse(node)]: [visit(node); return value_]. *)
Fixpoint ValueVisitor_parse (fuel : nat) (node : Node)
  (this : ValueVisitor) : option (T * ValueVisitor) :=
  match fuel with
  | 0 => None
  | S fuel' =>
      match ValueVisitor_visit_ (ValueVisitor_parse fuel') (kind node)
              node this with
      | Some this2 => Some (ValueVisitor_value_ this2, this2)
      | None => None
      end
  end.

End ValueVisitor.

End parser.

(** ** The benchmark driver (src/benchmark/main.cc) *)
Module benchmark.

Section Main.
(** The state of the runtime, and [runtime::init(_global_data)],
    [runtime::run(_global_main)], [runtime::error()] on it. *)
Context {Runtime : Type}.
Variable init : Runtime -> bool * Runtime.
Variable run : Runtime -> bool * Runtime.
Variable error : Runtime -> string.

(** What [main] leaves behind: its return value, the lines written to
    [std::cerr], the runtime, and whether [runtime::run] was called. *)
Record Outcome := mkOutcome {
  status : N;
  cerr : list string;
  runtime_after : Runtime;
  ran : bool
}.

Definition main (r : Runtime) : Outcome :=
  let (ok, r1) := init r in
  if negb ok then mkOutcome 1 [error r1] r1 false
  else
    let (ok', r2) := run r1 in
    if negb ok' then mkOutcome 1 [error r2] r2 true
    else mkOutcome 0 [] r2 true.

End Main.

End benchmark.

(** ** Proofs *)

Import ir.

Set Warnings "-clear-no-such-hyp".

(** Two descriptions of a block after a push agree. *)
Ltac solve_after_push block_eq :=
  intros x Bx; unfold after_push, with_instr, with_referrer; simpl;
  repeat case_decide; apply block_eq; simpl; try done; set_solver.

(** *** The order on types *)

Lemma string_compare_refl (s : string) : String.compare s s = Eq.
Proof.
  induction s as [|a s IH]; simpl; [done|].
  unfold Ascii.compare. by rewrite N.compare_refl.
Qed.

Lemma string_compare_trans (c : comparison) (s t u : string) :
  String.compare s t = c -> String.compare t u = c -> String.compare s u = c.
Proof.
  revert t u. induction s as [|a s IH]; intros [|b t] [|d u]; simpl; try congruence.
  unfold Ascii.compare.
  destruct (N.compare_spec (N_of_ascii a) (N_of_ascii b)) as [E1|L1|G1];
    destruct (N.compare_spec (N_of_ascii b) (N_of_ascii d)) as [E2|L2|G2];
    destruct (N.compare_spec (N_of_ascii a) (N_of_ascii d)) as [E3|L3|G3];
    try congruence; try lia; eauto.
Qed.

Lemma CompOpp_lex (c d : comparison) :
  CompOpp (lex c d) = lex (CompOpp c) (CompOpp d).
Proof. by destruct c. Qed.

Lemma type_order_antisym (x y : Type_) :
  type_order y x = CompOpp (type_order x y).
Proof.
  revert y. induction x as [i|n|e IH n|e IH|a]; intros y;
    destruct y as [j|m|e' n'|e'|b]; cbn [type_order];
    rewrite CompOpp_lex, <- N.compare_antisym; f_equal; simpl; try done.
  - by rewrite CompOpp_lex, <- N.compare_antisym, IH.
  - apply String.compare_antisym.
Qed.

Lemma N_comp_trans (a b c : N) : comp_trans (a ?= b)%N (b ?= c)%N (a ?= c)%N.
Proof.
  destruct (N.compare_spec a b), (N.compare_spec b c), (N.compare_spec a c);
    simpl; try done; lia.
Qed.

Lemma string_comp_trans (a b c : string) :
  comp_trans (String.compare a b) (String.compare b c) (String.compare a c).
Proof.
  destruct (String.compare a b) eqn:E1.
  - apply String.compare_eq_iff in E1 as ->. simpl. by destruct (String.compare b c).
  - destruct (String.compare b c) eqn:E2; simpl; try done.
    + apply String.compare_eq_iff in E2 as ->. done.
    + eapply string_compare_trans; eauto.
  - destruct (String.compare b c) eqn:E2; simpl; try done.
    + apply String.compare_eq_iff in E2 as ->. done.
    + eapply string_compare_trans; eauto.
Qed.

Lemma lex_comp_trans (c1 c2 c3 d1 d2 d3 : comparison) :
  comp_trans c1 c2 c3 -> (c1 = Eq -> c2 = Eq -> comp_trans d1 d2 d3) ->
  comp_trans (lex c1 d1) (lex c2 d2) (lex c3 d3).
Proof.
  destruct c1, c2, c3; simpl; try done; intros _ H;
    try (specialize (H eq_refl eq_refl)); destruct d1, d2, d3; simpl in *; done.
Qed.

Lemma type_order_trans (x y z : Type_) :
  class_matches x -> class_matches y -> class_matches z ->
  comp_trans (type_order x y) (type_order y z) (type_order x z).
Proof.
  revert y z. induction x as [i|n|e IH n|e IH|a]; intros y z Hx Hy Hz.
  all: destruct y as [j|m|e' n'|e'|b]; destruct z as [k|l|e'' n''|e''|c].
  all: cbn [type_order identifier].
  all: apply lex_comp_trans; [apply N_comp_trans|].
  all: intros E1 E2; try discriminate E1; try discriminate E2.
  all: try (by destruct i; try discriminate E1; try discriminate Hx).
  all: try (by destruct j; try discriminate E1; try discriminate E2; try discriminate Hy).
  all: try (by destruct k; try discriminate E2; try discriminate Hz).
  all: try done.
  - apply lex_comp_trans; [by apply IH | intros _ _; apply N_comp_trans].
  - by apply IH.
  - apply string_comp_trans.
Qed.

Lemma id_eqb_compare (a b : Identifier) :
  id_eqb a b = is_Eq (ordinal a ?= ordinal b)%N.
Proof. unfold id_eqb. by rewrite N.eqb_compare. Qed.

Lemma id_ltb_compare (a b : Identifier) :
  id_ltb a b = is_Lt (ordinal a ?= ordinal b)%N.
Proof. done. Qed.

Lemma string_eqb_compare (a b : string) :
  String.eqb a b = is_Eq (String.compare a b).
Proof.
  destruct (String.eqb_spec a b) as [->|Hne].
  - by rewrite string_compare_refl.
  - destruct (String.compare a b) eqn:E; try done.
    by apply String.compare_eq_iff in E.
Qed.

Lemma equal_to_order (x y : Type_) :
  class_matches x -> class_matches y ->
  equal_to x y = Some (is_Eq (type_order x y)).
Proof.
  revert y. induction x as [i|n|e IH n|e IH|a]; intros y Hx Hy.
  all: destruct y as [j|m|e' n'|e'|b]; cbn [equal_to type_order identifier].
  all: rewrite ?id_eqb_compare.
  all: try (by destruct i; try discriminate Hx).
  all: try (by destruct j; try discriminate Hy).
  all: try done.
  - by destruct (ordinal i ?= ordinal j)%N.
  - simpl. rewrite (IH e') by done. rewrite N.eqb_compare.
    by destruct (type_order e e'), (n ?= n')%N.
  - simpl. by apply IH.
  - simpl. by rewrite string_eqb_compare.
Qed.

Lemma less_than_order (x y : Type_) :
  class_matches x -> class_matches y ->
  less_than x y = Some (is_Lt (type_order x y)).
Proof.
  revert y. induction x as [i|n|e IH n|e IH|a]; intros y Hx Hy.
  all: destruct y as [j|m|e' n'|e'|b]; cbn [less_than type_order identifier].
  all: rewrite ?id_eqb_compare, ?id_ltb_compare.
  all: try (by destruct i; try discriminate Hx).
  all: try (by destruct j; try discriminate Hy).
  all: try done.
  - by destruct (ordinal i ?= ordinal j)%N.
  - simpl. rewrite (equal_to_order e e') by done. unfold N.ltb.
    destruct (type_order e e') eqn:E; simpl; try done.
    + rewrite IH by done. by rewrite E.
    + rewrite IH by done. by rewrite E.
  - simpl. by apply IH.
Qed.

(** *** The builder *)

Lemma bind_Some {A B : Type} (m : M A) (k : A -> M B) h y h' :
  (m ≫= k) h = Some (y, h') ->
  exists x h1, m h = Some (x, h1) /\ k x h1 = Some (y, h').
Proof.
  unfold mbind, M_bind. destruct (m h) as [[x h1]|]; [|done]. eauto.
Qed.

Lemma ret_Some {A : Type} (x y : A) h h' :
  (mret x : M A) h = Some (y, h') -> y = x /\ h' = h.
Proof. unfold mret, M_ret. by intros [= -> ->]. Qed.

Lemma assert_Some (c : bool) u h h' :
  assert c h = Some (u, h') -> c = true /\ h' = h.
Proof. unfold assert. destruct c; [|done]. by intros [= _ ->]. Qed.

Lemma get_block_Some b B h h' :
  get_block b h = Some (B, h') -> blocks h !! b = Some B /\ h' = h.
Proof. unfold get_block. destruct (blocks h !! b); [|done]. by intros [= -> ->]. Qed.

Lemma get_instr_Some p T h h' :
  get_instr p h = Some (T, h') -> instructions h !! p = Some T /\ h' = h.
Proof. unfold get_instr. destruct (instructions h !! p); [|done]. by intros [= -> ->]. Qed.

Lemma get_function_Some f F h h' :
  get_function f h = Some (F, h') -> functions h !! f = Some F /\ h' = h.
Proof. unfold get_function. destruct (functions h !! f); [|done]. by intros [= -> ->]. Qed.

Lemma terminated_Some b t h h' :
  terminated b h = Some (t, h') ->
  h' = h /\ exists B, blocks h !! b = Some B /\
    t = ends_with_terminator h (instrs_ B).
Proof.
  unfold terminated. intros (B & h1 & [HB ->]%get_block_Some & H)%bind_Some.
  cut (h' = h /\ t = ends_with_terminator h (instrs_ B));
    [intros [-> ->]; eauto|].
  unfold ends_with_terminator, instr_terminating.
  destruct (last (instrs_ B)) as [p|].
  - apply bind_Some in H as (T & h1 & [HT ->]%get_instr_Some & [-> ->]%ret_Some).
    by rewrite HT.
  - by apply ret_Some in H as [-> ->].
Qed.

Lemma push_instr_Some b i u h h' :
  push_instr b i h = Some (u, h') ->
  exists B, blocks h !! b = Some B /\
    ends_with_terminator h (instrs_ B) = false /\
    h' = set_block b (mkBlock (label_ B) (instrs_ B ++ [i]) (referrers_ B)) h.
Proof.
  unfold push_instr.
  intros (t & h1 & (-> & B & HB & ->)%terminated_Some & H)%bind_Some.
  apply bind_Some in H as ([] & h2 & [Ht ->]%assert_Some & H).
  apply bind_Some in H as (B' & h3 & [HB' ->]%get_block_Some & H).
  assert (B' = B) as -> by congruence.
  exists B. split; [done|]. split; [by destruct (ends_with_terminator _ _)|].
  unfold put_block in H. by injection H as _ <-.
Qed.

Lemma add_referrer_Some b i u h h' :
  add_referrer b i h = Some (u, h') ->
  exists B, blocks h !! b = Some B /\
    h' = set_block b (mkBlock (label_ B) (instrs_ B) ({[i]} ∪ referrers_ B)) h.
Proof.
  unfold add_referrer. intros (B & h1 & [HB ->]%get_block_Some & H)%bind_Some.
  exists B. split; [done|]. unfold put_block in H. by injection H as _ <-.
Qed.

Lemma remove_referrer_Some b i u h h' :
  remove_referrer b i h = Some (u, h') ->
  exists B, blocks h !! b = Some B /\
    h' = set_block b (mkBlock (label_ B) (instrs_ B) (referrers_ B ∖ {[i]})) h.
Proof.
  unfold remove_referrer. intros (B & h1 & [HB ->]%get_block_Some & H)%bind_Some.
  exists B. split; [done|]. unfold put_block in H. by injection H as _ <-.
Qed.

Lemma new_Instruction_Some T p h h' :
  new_Instruction T h = Some (p, h') -> p = next_ h /\ h' = add_instr p T h.
Proof.
  unfold new_Instruction, alloc, put_instr, mbind, mret, M_bind, M_ret. simpl.
  by intros [= <- <-].
Qed.

Lemma set_block_lookup (F : Block -> Block) b B h x :
  blocks h !! b = Some B ->
  blocks (set_block b (F B) h) !! x =
  (fun B0 => if decide (x = b) then F B0 else B0) <$> blocks h !! x.
Proof.
  intros HB. simpl. destruct (decide (x = b)) as [->|Hne].
  - by rewrite lookup_insert_eq, HB.
  - rewrite lookup_insert_ne by done. by destruct (blocks h !! x).
Qed.

Lemma last_lookup_Some {A : Type} (l : list A) (x : A) :
  last l = Some x -> l !! (length l - 1) = Some x.
Proof. rewrite last_lookup. intros <-. f_equal. lia. Qed.

Lemma ends_with_terminator_add_instr h b B T :
  heap_ok h -> blocks h !! b = Some B ->
  ends_with_terminator (add_instr (next_ h) T h) (instrs_ B) =
  ends_with_terminator h (instrs_ B).
Proof.
  intros Hok HB. unfold ends_with_terminator, instr_terminating.
  destruct (last (instrs_ B)) as [q|] eqn:Hq; [|done]. simpl.
  apply last_lookup_Some in Hq.
  destruct (ok_shape h Hok b B _ q HB Hq) as (Tq & HTq & _).
  rewrite lookup_insert_ne; [done|].
  apply (ok_instr_bound h Hok) in HTq. lia.
Qed.

Lemma set_block_mapped (F : Block -> Block) b B h :
  blocks h !! b = Some B ->
  blocks_mapped (fun x B0 => if decide (x = b) then F B0 else B0)
    h (set_block b (F B) h).
Proof. intros HB. repeat split. intros x. by apply set_block_lookup. Qed.

Lemma push_instr_mapped b i u h h' :
  push_instr b i h = Some (u, h') ->
  (exists B, blocks h !! b = Some B /\
     ends_with_terminator h (instrs_ B) = false) /\
  blocks_mapped (fun x B => if decide (x = b) then with_instr i B else B) h h'.
Proof.
  intros (B & HB & Hopen & ->)%push_instr_Some. split; [eauto|].
  by apply (set_block_mapped (with_instr i)).
Qed.

Lemma add_referrer_mapped b i u h h' :
  add_referrer b i h = Some (u, h') ->
  is_Some (blocks h !! b) /\
  blocks_mapped (fun x B => if decide (x = b) then with_referrer i B else B)
    h h'.
Proof.
  intros (B & HB & ->)%add_referrer_Some. split; [eauto|].
  by apply (set_block_mapped (with_referrer i)).
Qed.

Lemma remove_referrer_mapped b i u h h' :
  remove_referrer b i h = Some (u, h') ->
  is_Some (blocks h !! b) /\
  blocks_mapped
    (fun x B => if decide (x = b) then without_referrer i B else B) h h'.
Proof.
  intros (B & HB & ->)%remove_referrer_Some. split; [eauto|].
  by apply (set_block_mapped (without_referrer i)).
Qed.

Lemma blocks_mapped_trans g1 g2 h1 h2 h3 :
  blocks_mapped g1 h1 h2 -> blocks_mapped g2 h2 h3 ->
  blocks_mapped (fun x B => g2 x (g1 x B)) h1 h3.
Proof.
  intros (I1 & F1 & N1 & B1) (I2 & F2 & N2 & B2). repeat split; try congruence.
  intros x. rewrite B2, B1. by destruct (blocks h1 !! x).
Qed.

Lemma blocks_mapped_add_instr g p T h h' :
  blocks_mapped g (add_instr p T h) h' ->
  instructions h' = <[p:=T]> (instructions h) /\
  functions h' = functions h /\ next_ h' = S (next_ h) /\
  forall x, blocks h' !! x = g x <$> blocks h !! x.
Proof. intros (I1 & F1 & N1 & B1). done. Qed.

Lemma Block_eq (B B' : Block) :
  label_ B = label_ B' -> instrs_ B = instrs_ B' ->
  referrers_ B = referrers_ B' -> B = B'.
Proof. destruct B, B'. simpl. by intros -> -> ->. Qed.

Lemma blocks_mapped_refl h : blocks_mapped (fun _ B => B) h h.
Proof. repeat split. intros x. by destruct (blocks h !! x). Qed.

Lemma ends_with_terminator_ext h h' l :
  instructions h' = instructions h ->
  ends_with_terminator h' l = ends_with_terminator h l.
Proof.
  intros E. unfold ends_with_terminator, instr_terminating. by rewrite E.
Qed.

Lemma pushed_intro (g1 g2 : ptr -> Block -> Block) h h1 h' b p T B1 :
  heap_ok h -> p = next_ h ->
  blocks_mapped g1 (add_instr p T h) h1 ->
  (forall x B, instrs_ (g1 x B) = instrs_ B) ->
  blocks h1 !! b = Some B1 ->
  ends_with_terminator h1 (instrs_ B1) = false ->
  blocks_mapped g2 h1 h' ->
  (is_terminating (class_of T) = true -> host T = Some b) ->
  (forall t, t ∈ targets T -> is_Some (blocks h !! t)) ->
  (forall x Bx, g2 x (g1 x Bx) = after_push b p T Bx x) ->
  pushed h h' b p T.
Proof.
  intros Hok -> M1 Hg1 HB1 Hopen M2 Hhost Htg Hg.
  pose proof (blocks_mapped_trans _ _ _ _ _ M1 M2) as M.
  apply blocks_mapped_add_instr in M as (I & F & N & HB).
  destruct M1 as (I1 & _ & _ & HBm).
  rewrite HBm in HB1. simpl in HB1.
  destruct (blocks h !! b) as [B|] eqn:HBb; [|done].
  injection HB1 as <-. rewrite Hg1 in Hopen.
  rewrite (ends_with_terminator_ext _ _ _ I1) in Hopen.
  split; try done.
  - intros x. rewrite HB. destruct (blocks h !! x); [|done]. simpl. by rewrite Hg.
  - exists B. split; [done|].
    by rewrite <- (ends_with_terminator_add_instr h b B T).
Qed.

Lemma Factory_class_not_terminating (f : Factory) :
  is_terminating (Factory_class f) = false.
Proof. by destruct f. Qed.

Lemma push_pushed (f : Factory) (b p : ptr) (h h' : Heap) :
  heap_ok h -> push f b h = Some (p, h') ->
  pushed h h' b p (Instr (Factory_class f)).
Proof.
  intros Hok H. unfold push in H.
  apply bind_Some in H as (p' & h1 & [-> ->]%new_Instruction_Some & H).
  apply bind_Some in H as ([] & h2 & [(B & HB & Hopen) M1]%push_instr_mapped & H).
  apply ret_Some in H as [-> ->].
  eapply (pushed_intro (fun _ B => B) _ h _ h2);
    [done|done|apply blocks_mapped_refl|done|exact HB|exact Hopen|exact M1|..].
  - unfold class_of. by rewrite Factory_class_not_terminating.
  - simpl. set_solver.
  - intros x Bx. unfold after_push, with_instr. simpl. by case_decide; apply Block_eq.
Qed.

Lemma push_trm_pushed (t : Terminator) (b p : ptr) (h h' : Heap) :
  heap_ok h -> push_trm b t h = Some (p, h') ->
  pushed h h' b p (instr_of b t).
Proof.
  intros Hok H. destruct t as [c tb fb|tb|v]; simpl in H.
  - unfold push_trm_br, new_BranchInstruction in H.
    apply bind_Some in H as (p' & h1 & H1 & H).
    apply bind_Some in H1 as (p1 & h0 & [-> ->]%new_Instruction_Some & H1).
    apply bind_Some in H1 as ([] & h2 & [S1 M1]%add_referrer_mapped & H1).
    apply bind_Some in H1 as ([] & h3 & [S2 M2]%add_referrer_mapped & H1).
    apply ret_Some in H1 as [-> ->].
    apply bind_Some in H as ([] & h4 & [(B & HB & Hopen) M3]%push_instr_mapped & H).
    apply ret_Some in H as [-> ->].
    pose proof (blocks_mapped_trans _ _ _ _ _ M1 M2) as M.
    eapply (pushed_intro _ _ h h3 h4);
      [done|done|exact M| |exact HB|exact Hopen|exact M3|..].
    + intros x Bx. simpl. by repeat case_decide.
    + done.
    + destruct M1 as (_ & _ & _ & L1). rewrite L1 in S2.
      apply fmap_is_Some in S2. simpl in S1, S2. simpl. set_solver.
    + solve_after_push Block_eq.
  - unfold push_trm_jmp, new_JumpInstruction in H.
    apply bind_Some in H as (p' & h1 & H1 & H).
    apply bind_Some in H1 as (p1 & h0 & [-> ->]%new_Instruction_Some & H1).
    apply bind_Some in H1 as ([] & h2 & [S1 M1]%add_referrer_mapped & H1).
    apply ret_Some in H1 as [-> ->].
    apply bind_Some in H as ([] & h4 & [(B & HB & Hopen) M3]%push_instr_mapped & H).
    apply ret_Some in H as [-> ->].
    eapply (pushed_intro _ _ h h2 h4);
      [done|done|exact M1| |exact HB|exact Hopen|exact M3|..].
    + intros x Bx. simpl. by repeat case_decide.
    + done.
    + simpl in S1. simpl. set_solver.
    + solve_after_push Block_eq.
  - unfold push_trm_ret, new_ReturnInstruction in H.
    apply bind_Some in H as (p' & h1 & [-> ->]%new_Instruction_Some & H).
    apply bind_Some in H as ([] & h4 & [(B & HB & Hopen) M3]%push_instr_mapped & H).
    apply ret_Some in H as [-> ->].
    eapply (pushed_intro (fun _ B => B) _ h _ h4);
      [done|done|apply blocks_mapped_refl|done|exact HB|exact Hopen|exact M3|..].
    + done.
    + simpl. set_solver.
    + solve_after_push Block_eq.
Qed.

Lemma pushed_block_inv h h' b p T x B' :
  pushed h h' b p T -> blocks h' !! x = Some B' ->
  exists Bx, blocks h !! x = Some Bx /\ B' = after_push b p T Bx x.
Proof.
  intros P. rewrite (pushed_blocks _ _ _ _ _ P).
  intros (Bx & ? & ?)%fmap_Some. eauto.
Qed.

Lemma pushed_block_fwd h h' b p T x Bx :
  pushed h h' b p T -> blocks h !! x = Some Bx ->
  blocks h' !! x = Some (after_push b p T Bx x).
Proof. intros P HB. by rewrite (pushed_blocks _ _ _ _ _ P), HB. Qed.

Lemma instrs_after_push b p T Bx x q :
  q ∈ instrs_ (after_push b p T Bx x) ->
  q ∈ instrs_ Bx \/ (q = p /\ x = b).
Proof. simpl. case_decide; set_solver. Qed.

Lemma referrers_after_push b p T Bx x q :
  q ∈ referrers_ (after_push b p T Bx x) ->
  q ∈ referrers_ Bx \/ (q = p /\ x ∈ targets T).
Proof. simpl. case_decide; set_solver. Qed.

Lemma block_instr_bound h x Bx q :
  heap_ok h -> blocks h !! x = Some Bx -> q ∈ instrs_ Bx -> q < next_ h.
Proof.
  intros Hok HB (k & Hk)%list_elem_of_lookup.
  destruct (ok_shape h Hok x Bx k q HB Hk) as (T & HT & _).
  by eapply ok_instr_bound.
Qed.

Lemma open_no_terminator h x Bx k q T :
  heap_ok h -> blocks h !! x = Some Bx ->
  ends_with_terminator h (instrs_ Bx) = false ->
  instrs_ Bx !! k = Some q -> instructions h !! q = Some T ->
  is_terminating (class_of T) = false.
Proof.
  intros Hok HB Hopen Hk HT.
  destruct (is_terminating (class_of T)) eqn:Ht; [|done].
  destruct (ok_shape h Hok x Bx k q HB Hk) as (T' & HT' & Hlast).
  assert (T' = T) as -> by congruence.
  destruct (Hlast Ht) as [Hlen _].
  unfold ends_with_terminator in Hopen. rewrite last_lookup in Hopen.
  replace (Init.Nat.pred (length (instrs_ Bx))) with k in Hopen by lia.
  rewrite Hk in Hopen. unfold instr_terminating in Hopen.
  rewrite HT in Hopen. congruence.
Qed.

Lemma pushed_ok h h' b p T :
  heap_ok h -> pushed h h' b p T -> heap_ok h'.
Proof.
  intros Hok P.
  pose proof (pushed_ptr _ _ _ _ _ P) as Hp.
  pose proof (pushed_next _ _ _ _ _ P) as Hn.
  pose proof (pushed_instrs _ _ _ _ _ P) as Hi.
  destruct (pushed_open _ _ _ _ _ P) as (B & HB & Hopen).
  split.
  - intros x B' (Bx & HBx & _)%(pushed_block_inv _ _ _ _ _ _ _ P).
    apply (ok_block_bound h Hok) in HBx. lia.
  - intros q Tq. rewrite Hi. destruct (decide (q = p)) as [->|Hne].
    + lia.
    + rewrite lookup_insert_ne by done. intros ?%(ok_instr_bound h Hok). lia.
  - intros x B' k q (Bx & HBx & ->)%(pushed_block_inv _ _ _ _ _ _ _ P) Hk.
    rewrite Hi. simpl in *. destruct (decide (x = b)) as [->|Hne].
    + assert (Bx = B) as -> by congruence.
      apply lookup_app_Some in Hk as [Hk|[Hlen Hk]].
      * destruct (ok_shape h Hok b B k q HB Hk) as (Tq & HTq & _).
        exists Tq. split.
        { rewrite lookup_insert_ne; [done|].
          apply (ok_instr_bound h Hok) in HTq. lia. }
        intros Ht.
        by rewrite (open_no_terminator h b B k q Tq Hok HB Hopen Hk HTq) in Ht.
      * apply list_lookup_singleton_Some in Hk as [Hk <-].
        exists T. rewrite lookup_insert_eq. split; [done|]. intros Ht.
        split; [|by apply (pushed_host _ _ _ _ _ P)].
        rewrite length_app. simpl. lia.
    + destruct (ok_shape h Hok x Bx k q HBx Hk) as (Tq & HTq & Hl).
      exists Tq. split; [|done].
      rewrite lookup_insert_ne; [done|].
      apply (ok_instr_bound h Hok) in HTq. lia.
  - intros x B' q Tq b' (Bx & HBx & ->)%(pushed_block_inv _ _ _ _ _ _ _ P).
    intros [Hq|[-> ->]]%instrs_after_push; rewrite Hi.
    + pose proof (block_instr_bound h x Bx q Hok HBx Hq) as Hlt.
      rewrite lookup_insert_ne by lia. intros HTq Hb'.
      destruct (ok_fwd h Hok x Bx q Tq b' HBx Hq HTq Hb') as (B0 & HB0 & Hr).
      exists (after_push b p T B0 b'). split; [by apply (pushed_block_fwd _ _ _ _ _ _ _ P)|].
      simpl. case_decide; set_solver.
    + rewrite lookup_insert_eq. intros [= <-] Hb'.
      destruct (pushed_targets _ _ _ _ _ P b' Hb') as [B0 HB0].
      exists (after_push b p T B0 b'). split; [by apply (pushed_block_fwd _ _ _ _ _ _ _ P)|].
      simpl. rewrite decide_True by done. set_solver.
  - intros b' B' q (Bx & HBx & ->)%(pushed_block_inv _ _ _ _ _ _ _ P).
    intros [Hq|[-> Hb']]%referrers_after_push; rewrite Hi.
    + destruct (ok_bwd h Hok b' Bx q HBx Hq) as (Tq & HTq & Hb' & bq & Bq & HBq & Hin).
      exists Tq. split.
      { rewrite lookup_insert_ne; [done|].
        apply (ok_instr_bound h Hok) in HTq. lia. }
      split; [done|]. exists bq, (after_push b p T Bq bq).
      split; [by apply (pushed_block_fwd _ _ _ _ _ _ _ P)|].
      simpl. case_decide; set_solver.
    + exists T. rewrite lookup_insert_eq. split; [done|]. split; [done|].
      exists b, (after_push b p T B b).
      split; [by apply (pushed_block_fwd _ _ _ _ _ _ _ P)|].
      simpl. rewrite decide_True by done. set_solver.
  - intros f F. rewrite (pushed_funs _ _ _ _ _ P). apply (ok_funs h Hok).
Qed.

Lemma empty_heap_ok : heap_ok empty_heap.
Proof. split; try done; intros *; by rewrite lookup_empty. Qed.

Lemma heap_ok_ext h h' :
  blocks h' = blocks h -> instructions h' = instructions h ->
  (forall f F, functions h' !! f = Some F -> blocks_ F <> []) ->
  next_ h <= next_ h' -> heap_ok h -> heap_ok h'.
Proof.
  intros EB EI HF Hn Hok. split; rewrite ?EB, ?EI.
  - intros b B HB. apply (ok_block_bound h Hok) in HB. lia.
  - intros p T HT. apply (ok_instr_bound h Hok) in HT. lia.
  - apply (ok_shape h Hok).
  - apply (ok_fwd h Hok).
  - apply (ok_bwd h Hok).
  - done.
Qed.

Lemma new_Block_Some label b h h' :
  new_Block label h = Some (b, h') -> b = next_ h /\ h' = add_block b label h.
Proof.
  unfold new_Block, alloc, put_block, mbind, mret, M_bind, M_ret. simpl.
  by intros [= <- <-].
Qed.

Lemma add_block_ok label h : heap_ok h -> heap_ok (add_block (next_ h) label h).
Proof.
  intros Hok.
  assert (Hfresh : blocks h !! next_ h = None).
  { destruct (blocks h !! next_ h) as [B|] eqn:HB; [|done].
    apply (ok_block_bound h Hok) in HB. lia. }
  assert (Hold : forall x B, blocks (add_block (next_ h) label h) !! x = Some B ->
            blocks h !! x = Some B \/ (x = next_ h /\ B = mkBlock label [] ∅)).
  { intros x B. simpl. destruct (decide (x = next_ h)) as [->|Hne].
    - rewrite lookup_insert_eq. intros [= <-]. by right.
    - rewrite lookup_insert_ne by done. by left. }
  assert (Hnew : forall x B, blocks h !! x = Some B ->
            blocks (add_block (next_ h) label h) !! x = Some B).
  { intros x B HB. simpl. rewrite lookup_insert_ne; [done|]. congruence. }
  split.
  - intros x B [HB|[-> _]]%Hold; simpl; [|lia].
    apply (ok_block_bound h Hok) in HB. lia.
  - intros p T HT. apply (ok_instr_bound h Hok) in HT. simpl. lia.
  - intros x B k q [HB|[-> ->]]%Hold Hk; [|done].
    apply (ok_shape h Hok x B k q HB Hk).
  - intros x B q T b' [HB|[-> ->]]%Hold Hq HT Hb'; [|set_solver].
    destruct (ok_fwd h Hok x B q T b' HB Hq HT Hb') as (B' & HB' & Hr).
    exists B'. split; [by apply Hnew|done].
  - intros b' B' q [HB|[-> ->]]%Hold Hq; [|set_solver].
    destruct (ok_bwd h Hok b' B' q HB Hq) as (T & HT & Hb' & bq & Bq & HBq & Hin).
    exists T. repeat split; try done. exists bq, Bq. split; [by apply Hnew|done].
  - apply (ok_funs h Hok).
Qed.

Lemma new_Function_Some name g f h h' :
  new_Function name g h = Some (f, h') ->
  f = S (next_ h) /\
  blocks h' = blocks (add_block (next_ h) "" h) /\
  instructions h' = instructions h /\
  functions h' = <[f:=mkFunction g name [next_ h]]> (functions h) /\
  next_ h' = S (S (next_ h)).
Proof.
  unfold new_Function.
  intros (e & h1 & [-> ->]%new_Block_Some & H)%bind_Some.
  unfold alloc, put_function, mbind, mret, M_bind, M_ret in H. simpl in H.
  by injection H as <- <-.
Qed.

Lemma new_Function_ok name g f h h' :
  heap_ok h -> new_Function name g h = Some (f, h') -> heap_ok h'.
Proof.
  intros Hok (-> & EB & EI & EF & EN)%new_Function_Some.
  apply (heap_ok_ext (add_block (next_ h) "" h)); [done|done| | |].
  - rewrite EF. intros f F. destruct (decide (f = S (next_ h))) as [->|Hne].
    + rewrite lookup_insert_eq. by intros [= <-].
    + rewrite lookup_insert_ne by done. apply (ok_funs h Hok).
  - rewrite EN. simpl. lia.
  - by apply add_block_ok.
Qed.

Lemma push_block_ok f b u h h' :
  heap_ok h -> push_block f b h = Some (u, h') -> heap_ok h'.
Proof.
  intros Hok. unfold push_block.
  intros (F & h1 & [HF ->]%get_function_Some & H)%bind_Some.
  unfold put_function in H. destruct u. injection H as <-.
  apply (heap_ok_ext h); [done|done| |simpl; lia|done]. simpl.
  intros f' F'. destruct (decide (f' = f)) as [->|Hne].
  - rewrite lookup_insert_eq. intros [= <-]. simpl. by destruct (blocks_ F).
  - rewrite lookup_insert_ne by done. apply (ok_funs h Hok).
Qed.

Lemma blocks_mapped_ext g g' h h' :
  (forall x B, g x B = g' x B) -> blocks_mapped g h h' -> blocks_mapped g' h h'.
Proof.
  intros E (I & F & N & L). repeat split; try done.
  intros x. rewrite L. destruct (blocks h !! x); [|done]. simpl. by rewrite E.
Qed.

Lemma remove_referrers_mapped ts i u h h' :
  remove_referrers ts i h = Some (u, h') ->
  blocks_mapped
    (fun x B => if decide (x ∈ ts) then without_referrer i B else B) h h'.
Proof.
  revert h. induction ts as [|t ts IH]; intros h; simpl.
  - intros [_ ->]%ret_Some.
    eapply blocks_mapped_ext; [|apply blocks_mapped_refl]. done.
  - intros ([] & h1 & [_ M1]%remove_referrer_mapped & H)%bind_Some.
    apply IH in H. eapply blocks_mapped_ext; [|eapply blocks_mapped_trans; eauto].
    intros x B. simpl. unfold without_referrer.
    repeat case_decide; try set_solver; apply Block_eq; simpl; set_solver.
Qed.

Lemma last_removelast {A : Type} (l : list A) (x : A) :
  last l = Some x -> l = (removelast l ++ [x])%list.
Proof.
  induction l as [|a [|a' l] IH]; [done| |].
  - by intros [= ->].
  - intros H. change (a :: a' :: l = a :: (removelast (a' :: l) ++ [x])%list).
    f_equal. by apply IH.
Qed.

Lemma popped_ok b old T B h h' :
  heap_ok h -> blocks h !! b = Some B -> last (instrs_ B) = Some old ->
  instructions h !! old = Some T -> is_terminating (class_of T) = true ->
  blocks_mapped (fun x Bx => after_pop b old T Bx x) h h' ->
  heap_ok h' /\
  exists B', blocks h' !! b = Some B' /\ instrs_ B' = removelast (instrs_ B).
Proof.
  intros Hok HB Hlast HT Ht (EI & EF & EN & L).
  pose proof (last_removelast _ _ Hlast) as Hsplit.
  assert (Hinv : forall x B', blocks h' !! x = Some B' ->
            exists Bx, blocks h !! x = Some Bx /\ B' = after_pop b old T Bx x).
  { intros x B'. rewrite L. intros (Bx & ? & ?)%fmap_Some. eauto. }
  assert (Hfwd : forall x Bx, blocks h !! x = Some Bx ->
            blocks h' !! x = Some (after_pop b old T Bx x)).
  { intros x Bx HBx. by rewrite L, HBx. }
  assert (Hsub : forall x Bx k q, instrs_ (after_pop b old T Bx x) !! k = Some q ->
            instrs_ Bx !! k = Some q).
  { intros x Bx k q. simpl. case_decide; [|done]. subst x.
    generalize (instrs_ Bx). intros l. revert k.
    induction l as [|a [|a' l] IH]; intros [|k]; try done.
    apply IH. }
  assert (Hold : forall x Bx, blocks h !! x = Some Bx ->
            old ∈ instrs_ (after_pop b old T Bx x) -> False).
  { intros x Bx HBx (k & Hk)%list_elem_of_lookup.
    pose proof (Hsub _ _ _ _ Hk) as Hk'.
    destruct (ok_shape h Hok x Bx k old HBx Hk') as (T' & HT' & Hl).
    assert (T' = T) as -> by congruence. destruct (Hl Ht) as [Hlen Hhost].
    apply last_lookup_Some in Hlast.
    destruct (ok_shape h Hok b B _ old HB Hlast) as (T' & HT'' & Hl').
    assert (T' = T) as -> by congruence. destruct (Hl' Ht) as [_ Hhost'].
    assert (x = b) as -> by congruence. assert (Bx = B) as -> by congruence.
    simpl in Hk. rewrite decide_True in Hk by done.
    apply lookup_lt_Some in Hk. rewrite Hsplit in Hlen.
    rewrite length_app in Hlen. simpl in Hlen. lia. }
  split; [split|].
  - intros x B' (Bx & HBx & _)%Hinv. rewrite EN. by eapply ok_block_bound.
  - intros q Tq. rewrite EI, EN. by apply ok_instr_bound.
  - intros x B' k q (Bx & HBx & ->)%Hinv Hk. rewrite EI.
    pose proof (Hsub _ _ _ _ Hk) as Hk'.
    destruct (ok_shape h Hok x Bx k q HBx Hk') as (Tq & HTq & Hl).
    exists Tq. split; [done|]. intros Htq. destruct (Hl Htq) as [Hlen Hhost].
    split; [|done]. simpl in *. case_decide; [|done]. subst x.
    assert (Bx = B) as -> by congruence.
    apply lookup_lt_Some in Hk. rewrite Hsplit in Hlen.
    rewrite length_app in Hlen. simpl in Hlen. lia.
  - intros x B' q Tq b' (Bx & HBx & ->)%Hinv Hq. rewrite EI. intros HTq Hb'.
    assert (Hq' : q ∈ instrs_ Bx).
    { apply list_elem_of_lookup in Hq as (k & Hk).
      apply list_elem_of_lookup. exists k. by eapply Hsub. }
    destruct (ok_fwd h Hok x Bx q Tq b' HBx Hq' HTq Hb') as (B0 & HB0 & Hr).
    exists (after_pop b old T B0 b'). split; [by apply Hfwd|].
    simpl. case_decide; [|done].
    apply elem_of_difference. split; [done|].
    intros ->%elem_of_singleton. exact (Hold x Bx HBx Hq).
  - intros b' B' q (Bx & HBx & ->)%Hinv Hq. rewrite EI.
    assert (Hq' : q ∈ referrers_ Bx /\ (b' ∈ targets T -> q <> old)).
    { simpl in Hq. case_decide; set_solver. }
    destruct Hq' as [Hq' Hne].
    destruct (ok_bwd h Hok b' Bx q HBx Hq')
      as (Tq & HTq & Hb' & bq & Bq & HBq & Hin).
    exists Tq. split; [done|]. split; [done|].
    exists bq, (after_pop b old T Bq bq). split; [by apply Hfwd|].
    simpl. case_decide; [|done]. subst bq.
    assert (Bq = B) as -> by congruence.
    assert (q <> old).
    { intros ->. assert (Tq = T) as -> by congruence. by apply Hne. }
    rewrite Hsplit in Hin. set_solver.
  - intros f F. rewrite EF. apply (ok_funs h Hok).
  - exists (after_pop b old T B b). split; [by apply Hfwd|].
    simpl. by rewrite decide_True.
Qed.

Lemma last_instr_Some b p h h' :
  last_instr b h = Some (p, h') ->
  h' = h /\ exists B, blocks h !! b = Some B /\ last (instrs_ B) = Some p.
Proof.
  unfold last_instr. intros (B & h1 & [HB ->]%get_block_Some & H)%bind_Some.
  destruct (last (instrs_ B)) as [q|] eqn:Hq; [|done].
  apply ret_Some in H as [-> ->]. eauto.
Qed.

Lemma replace_terminator_ok b t p h h' :
  heap_ok h -> replace_terminator b t h = Some (p, h') -> heap_ok h'.
Proof.
  intros Hok. unfold replace_terminator.
  intros (old & h1 & (-> & B & HB & Hlast)%last_instr_Some & H)%bind_Some.
  apply bind_Some in H as (T & h1 & [HT ->]%get_instr_Some & H).
  apply bind_Some in H as ([] & h1 & [Ht ->]%assert_Some & H).
  apply bind_Some in H as ([] & h1 & M1%remove_referrers_mapped & H).
  apply bind_Some in H as (B1 & h2 & [HB1 ->]%get_block_Some & H).
  apply bind_Some in H as ([] & h2 & H2 & H).
  unfold put_block in H2. injection H2 as <-.
  pose proof (set_block_mapped without_last b B1 h1 HB1) as M2.
  assert (M : blocks_mapped (fun x Bx => after_pop b old T Bx x) h
                (set_block b (without_last B1) h1)).
  { eapply blocks_mapped_ext; [|eapply blocks_mapped_trans; eauto].
    intros x Bx. simpl. unfold after_pop, without_last, without_referrer.
    repeat case_decide; by apply Block_eq. }
  destruct (popped_ok b old T B h _ Hok HB Hlast HT Ht M) as [Hok2 _].
  apply push_trm_pushed in H; [|done]. by eapply pushed_ok.
Qed.

Lemma call_ok c u h h' : heap_ok h -> call c h = Some (u, h') -> heap_ok h'.
Proof.
  intros Hok. destruct c as [name g|label|f b|f b|b t|b t]; simpl.
  - intros (f & h1 & H & [_ ->]%ret_Some)%bind_Some. by eapply new_Function_ok.
  - intros (b & h1 & [-> ->]%new_Block_Some & [_ ->]%ret_Some)%bind_Some.
    by apply add_block_ok.
  - by apply push_block_ok.
  - intros (p & h1 & H & [_ ->]%ret_Some)%bind_Some.
    eapply pushed_ok; [done|]. by eapply push_pushed.
  - intros (p & h1 & H & [_ ->]%ret_Some)%bind_Some.
    eapply pushed_ok; [done|]. by eapply push_trm_pushed.
  - intros (p & h1 & H & [_ ->]%ret_Some)%bind_Some.
    by eapply replace_terminator_ok.
Qed.

Lemma run_ok cs h h' : heap_ok h -> run cs h = Some h' -> heap_ok h'.
Proof.
  revert h. induction cs as [|c cs IH]; intros h Hok; simpl.
  - by intros [= <-].
  - destruct (call c h) as [[u h1]|] eqn:Hc; [|done].
    apply IH. by eapply call_ok.
Qed.

(** *** Equality, order and printing of types *)

Lemma equal_to_reference (a b : String) :
  equal_to (ReferenceType a) (ReferenceType b) = Some true.
Proof. reflexivity. Qed.

Lemma equal_to_same_type (x y : Type_) :
  class_matches x -> class_matches y -> name_free x -> name_free y ->
  equal_to x y = Some (same_type x y).
Proof.
  revert y. induction x as [i|n|e IH n|e IH|a]; intros y Hx Hy Nx Ny.
  all: destruct y as [j|m|e' n'|e'|b]; cbn [equal_to same_type identifier].
  all: try done.
  all: try (by destruct i; try discriminate Hx).
  all: try (by destruct j; try discriminate Hy).
  - simpl. by rewrite (IH e').
  - simpl. by apply IH.
Qed.

(** C3: [x.equal_to(y)] should be true exactly when [x] and [y] have the
    same identifier and the same parameters, the referred-entity name of
    a reference type among them. [ReferenceType] does not override
    [equal_to]: two reference types with the names "a" and "b" (code
    units 97 and 98) compare equal. *)
Theorem equal_to_ignores_reference_name :
  equal_to (ReferenceType [97%N]) (ReferenceType [98%N]) = Some true /\
  same_type (ReferenceType [97%N]) (ReferenceType [98%N]) = false.
Proof. split; reflexivity. Qed.

Lemma Is_true_eq (b : bool) : b = true -> Is_true b.
Proof. by intros ->. Qed.

(** C9: [as_string] returns a string on every type whose class matches
    its identifier: the identifiers of the derived types carried by
    [ArrayType], [PointerType] and [OpaqueType] objects only, also in
    element and pointee types. *)
Theorem as_string_defined (utf8 : String -> string) (t : Type_) :
  class_matches t = true -> exists s, as_string utf8 t = Some s.
Proof.
  induction t as [i|n|e IH n|e IH|a]; simpl; intros H.
  - destruct i; try discriminate H; eauto.
  - eauto.
  - destruct (IH H) as [s ->]. eauto.
  - destruct (IH H) as [s ->]. eauto.
  - eauto.
Qed.

Lemma as_string_defined_witness :
  exists s,
    as_string (fun _ => "x")
      (ArrayType (PointerType (ReferenceType [120%N])) 4) = Some s.
Proof.
  apply (as_string_defined (fun _ => "x")
           (ArrayType (PointerType (ReferenceType [120%N])) 4)).
  reflexivity.
Defined.

(** The assertion of the base method fails exactly on the other types. *)
Lemma as_string_fails (utf8 : String -> string) (t : Type_) :
  class_matches t = false -> as_string utf8 t = None.
Proof.
  induction t as [i|n|e IH n|e IH|a]; simpl; intros H; try done.
  - by destruct i.
  - by rewrite IH.
  - by rewrite IH.
Qed.

(** A [Type] object built by [Type(ID_ARRAY)] fails [assert(false)] in
    [as_string]. *)
Lemma as_string_plain_array_fails :
  as_string (fun _ => "") (Type_base ID_ARRAY) = None.
Proof. reflexivity. Qed.

Example as_string_example :
  as_string (fun _ => "x")
    (ArrayType (PointerType (ReferenceType [120%N])) 4)
  = Some "reference(x)*[4]".
Proof. reflexivity. Qed.

(** *** The type of an array element constant *)

Lemma ArrayElementConstant_type_array (v : Value) (e : Type_) (n i : N) :
  Value_type v = Some (ArrayType e n) ->
  new_ArrayElementConstant v i = Some (ArrayElementConstant v i) /\
  Value_type (ArrayElementConstant v i) = Some e.
Proof. intros H. unfold new_ArrayElementConstant. simpl. by rewrite H. Qed.

Lemma ArrayElementConstant_type_pointer (v : Value) (e : Type_) (i : N) :
  Value_type v = Some (PointerType e) ->
  new_ArrayElementConstant v i = Some (ArrayElementConstant v i) /\
  Value_type (ArrayElementConstant v i) = None.
Proof. intros H. unfold new_ArrayElementConstant. simpl. by rewrite H. Qed.

(** C10: for an operand of pointer type the constructor's assertion
    holds, but [type()] casts the operand's type to [ArrayType], which a
    [PointerType] object is not: the result is not defined. For an
    operand of array type it is the element type. *)
Theorem ArrayElementConstant_type_of_pointer_undefined :
  let p := NullConstant (PointerType value) in
  let a := NullConstant (ArrayType value 3) in
  new_ArrayElementConstant p 0 = Some (ArrayElementConstant p 0) /\
  Value_type (ArrayElementConstant p 0) = None /\
  new_ArrayElementConstant a 0 = Some (ArrayElementConstant a 0) /\
  Value_type (ArrayElementConstant a 0) = Some value.
Proof. repeat split. Qed.

(** *** Terminating instructions *)

(** C7: [is_terminating] is true exactly for [BranchInstruction],
    [JumpInstruction] and [ReturnInstruction]. *)
Theorem is_terminating_iff (c : InstrClass) :
  is_terminating c = true <->
  c = BranchInstruction \/ c = JumpInstruction \/ c = ReturnInstruction.
Proof.
  split.
  - destruct c; intros H; try discriminate H; auto.
  - by intros [->|[->| ->]].
Qed.


(** *** Blocks, referrers and functions of a built store *)

Lemma run_empty_ok (cs : list Call) (h : Heap) :
  run cs empty_heap = Some h -> heap_ok h.
Proof. apply run_ok, empty_heap_ok. Qed.















(** The branch registers itself with its target; replacing it removes
    it. *)
Example referrers_registered_and_removed :
  (h ← run (take 5 jump_then_replace) empty_heap;
   B ← blocks h !! 2; Some (elements (referrers_ B))) = Some [4] /\
  (h ← run jump_then_replace empty_heap;
   B ← blocks h !! 2; Some (elements (referrers_ B))) = Some [].
Proof. split; vm_compute; reflexivity. Qed.

(** C6: a function is constructed with one block, its entry block; every
    function of a store built by the builder has at least one block, and
    [last_block] returns a block, not [NULL]. *)
Theorem function_has_block
  (cs : list Call) (h : Heap) (f : ptr) (F : Function) :
  run cs empty_heap = Some h -> functions h !! f = Some F ->
  blocks_ F <> [] /\
  (exists b, last_block f h = Some (Some b, h)) /\
  (forall name is_global f' h',
     new_Function name is_global h = Some (f', h') ->
     exists entry,
       functions h' !! f' = Some (mkFunction is_global name [entry]) /\
       last_block f' h' = Some (Some entry, h')).
Proof.
  intros Hok%run_empty_ok HF.
  pose proof (ok_funs h Hok f F HF) as Hne.
  split; [done|]. split.
  - unfold last_block, get_function, mbind, mret, M_bind, M_ret.
    rewrite HF. destruct (last (blocks_ F)) as [b|] eqn:Hl; [eauto|].
    by apply last_None in Hl.
  - intros name g f' h' (-> & _ & _ & EF & _)%new_Function_Some.
    exists (next_ h).
    unfold last_block, get_function, mbind, mret, M_bind, M_ret.
    by rewrite EF, lookup_insert_eq.
Qed.

Lemma function_has_block_witness :
  let h := jump_then_replace_heap in
  let F := mkFunction false "g" [0; 2] in
  blocks_ F <> [] /\
  (exists b, last_block 1 h = Some (Some b, h)) /\
  (forall name is_global f' h',
     new_Function name is_global h = Some (f', h') ->
     exists entry,
       functions h' !! f' = Some (mkFunction is_global name [entry]) /\
       last_block f' h' = Some (Some entry, h')).
Proof.
  intros h F.
  apply (function_has_block jump_then_replace h 1 F);
    vm_compute; reflexivity.
Defined.

(** *** Runtime errors *)

(** C8: there are seven error classes; a native error constructed from a
    message has the canonical name of its class and that message, and the
    generic error has that message too. *)
Theorem native_error_name_message (m : runtime.EsString) :
  length runtime.ErrorClasses = 7 /\
  NoDup runtime.ErrorClasses /\
  (forall T, T ∈ runtime.ErrorClasses) /\
  runtime.name (runtime.new_EsEvalError m) = "EvalError" /\
  runtime.name (runtime.new_EsRangeError m) = "RangeError" /\
  runtime.name (runtime.new_EsReferenceError m) = "ReferenceError" /\
  runtime.name (runtime.new_EsSyntaxError m) = "SyntaxError" /\
  runtime.name (runtime.new_EsTypeError m) = "TypeError" /\
  runtime.name (runtime.new_EsUriError m) = "URIError" /\
  (forall T, runtime.message (runtime.create_inst T m) = m) /\
  (forall T, runtime.class_ (runtime.create_inst T m) = T).
Proof.
  repeat split; try done.
  - unfold runtime.ErrorClasses. repeat constructor; set_solver.
  - intros T. unfold runtime.ErrorClasses. destruct T; set_solver.
  - by intros [].
  - by intros [].
Qed.

(** C4: on a context stack with a topmost context, [es_throw<T>(m)]
    returns, and the stack it leaves differs in the topmost context only,
    whose pending exception is an instance of [T] made from [m]. *)
Theorem es_throw_sets_pending
  (T : runtime.ErrorClass) (m : runtime.EsString)
  (s : runtime.EsContextStack) :
  s <> [] ->
  exists ctx,
    runtime.es_throw T m s = Some (ctx :: tail s) /\
    runtime.pending_exception_ ctx
      = runtime.from_obj (runtime.create_inst T m) /\
    runtime.class_ (runtime.create_inst T m) = T /\
    runtime.message (runtime.create_inst T m) = m.
Proof.
  intros Hs. destruct s as [|ctx rest]; [done|].
  exists (runtime.set_pending_exception
            (runtime.from_obj (runtime.create_inst T m)) ctx).
  repeat split; by destruct T.
Qed.

Lemma es_throw_sets_pending_witness :
  let s := [runtime.mkEsContext runtime.nothing;
            runtime.mkEsContext runtime.nothing] in
  exists ctx,
    runtime.es_throw runtime.EsTypeError "not a function" s
      = Some (ctx :: tail s) /\
    runtime.pending_exception_ ctx
      = runtime.from_obj
          (runtime.create_inst runtime.EsTypeError "not a function") /\
    runtime.class_ (runtime.create_inst runtime.EsTypeError "not a function")
      = runtime.EsTypeError /\
    runtime.message
      (runtime.create_inst runtime.EsTypeError "not a function")
      = "not a function".
Proof.
  intros s.
  apply (es_throw_sets_pending runtime.EsTypeError "not a function" s).
  discriminate.
Defined.

(** A DEBUG build throws the message prefixed with the place of the
    throw. *)
Example es_throw_debug_example :
  runtime.es_throw_debug runtime.EsRangeError "array.cc" 42 "bad length"
    [runtime.mkEsContext runtime.nothing]
  = Some [runtime.mkEsContext
            (runtime.from_obj
               (runtime.mkEsError runtime.EsRangeError "RangeError"
                  "[array.cc:42] bad length"))].
Proof. reflexivity. Qed.

(** ** Further properties *)

(** *** Types *)

(** X1: of the nine predicates [is_void], ..., [is_opaque] exactly one is
    true of a type, the one at the ordinal of its identifier. *)
Theorem Type_predicates_exactly_one (t : Type_) (i : nat) :
  Type_predicates t !! i = Some true <->
  i = N.to_nat (ordinal (identifier t)).
Proof.
  unfold Type_predicates, is_void, is_boolean, is_double, is_string,
    is_value, is_reference, is_array, is_pointer, is_opaque.
  destruct (identifier t); do 10 (destruct i as [|i]; [by split|]);
    by split.
Qed.

(** X2: on a type whose class matches its identifier, [is_array],
    [is_pointer] and [is_opaque] tell exactly when the cast to
    [ArrayType], [PointerType] and [OpaqueType] is defined. *)
Theorem predicates_guard_casts (t : Type_) :
  class_matches t = true ->
  (is_array t = true <-> is_Some (cast_ArrayType t)) /\
  (is_pointer t = true <-> is_Some (cast_PointerType t)) /\
  (is_opaque t = true <-> is_Some (cast_OpaqueType t)).
Proof.
  intros H. destruct t as [i|n|e n|e|a]; simpl in *;
    try (destruct i; try discriminate H);
    repeat split; intros H'; try done; try (by destruct H'); eauto.
Qed.

Lemma predicates_guard_casts_witness :
  let t := PointerType (ArrayType _double 8) in
  (is_array t = true <-> is_Some (cast_ArrayType t)) /\
  (is_pointer t = true <-> is_Some (cast_PointerType t)) /\
  (is_opaque t = true <-> is_Some (cast_OpaqueType t)).
Proof. intros t. apply (predicates_guard_casts t). reflexivity. Defined.

Lemma equal_to_refl (x : Type_) : equal_to x x = Some true.
Proof.
  induction x as [i|n|e IH n|e IH|a]; simpl.
  - unfold id_eqb. by rewrite N.eqb_refl.
  - done.
  - by rewrite IH, N.eqb_refl.
  - done.
  - by rewrite String.eqb_refl.
Qed.

(** X3: [equal_to] is an equivalence: reflexive on every [Type] object,
    and symmetric and transitive on the objects whose class matches their
    identifier. *)
Theorem equal_to_equivalence (x y z : Type_) :
  class_matches x = true -> class_matches y = true ->
  class_matches z = true ->
  (forall t, equal_to t t = Some true) /\
  equal_to y x = equal_to x y /\
  (equal_to x y = Some true -> equal_to y z = Some true ->
   equal_to x z = Some true).
Proof.
  intros Hx%Is_true_eq Hy%Is_true_eq Hz%Is_true_eq.
  split; [apply equal_to_refl|].
  rewrite !equal_to_order by done.
  pose proof (type_order_trans x y z Hx Hy Hz) as Htr.
  rewrite (type_order_antisym x y). split.
  - by destruct (type_order x y).
  - destruct (type_order x y), (type_order y z); simpl in *; try done.
    by rewrite Htr.
Qed.

Lemma equal_to_equivalence_witness :
  let x := ArrayType (ReferenceType [97%N]) 2 in
  let y := ArrayType (ReferenceType [98%N]) 2 in
  let z := ArrayType (Type_base ID_REFERENCE) 2 in
  (forall t, equal_to t t = Some true) /\
  equal_to y x = equal_to x y /\
  (equal_to x y = Some true -> equal_to y z = Some true ->
   equal_to x z = Some true).
Proof.
  intros x y z. apply (equal_to_equivalence x y z); reflexivity.
Defined.

(** X4: [less_than] does not tell apart types that [equal_to] holds
    equal, on either side: the comparators [Type::less] and
    [Type::equal_to] agree on what a key is. *)
Theorem less_than_respects_equal_to (x y z : Type_) :
  class_matches x = true -> class_matches y = true ->
  class_matches z = true ->
  Type_equal_to x y = Some true ->
  Type_less x z = Type_less y z /\ Type_less z x = Type_less z y.
Proof.
  intros Hx%Is_true_eq Hy%Is_true_eq Hz%Is_true_eq.
  unfold Type_equal_to, Type_less.
  rewrite !less_than_order, !equal_to_order by done.
  intros [= E].
  pose proof (type_order_trans y x z Hy Hx Hz) as H1.
  pose proof (type_order_trans z x y Hz Hx Hy) as H2.
  rewrite (type_order_antisym x y) in H1.
  destruct (type_order x y); simpl in *; try done.
  split.
  - by rewrite H1.
  - destruct (type_order z x); simpl in H2; by rewrite H2.
Qed.

Lemma less_than_respects_equal_to_witness :
  let x := PointerType (ReferenceType [97%N]) in
  let y := PointerType (ReferenceType [98%N]) in
  let z := PointerType (OpaqueType "state") in
  Type_less x z = Type_less y z /\ Type_less z x = Type_less z y.
Proof.
  intros x y z. apply (less_than_respects_equal_to x y z); reflexivity.
Defined.

Lemma ordinal_inj (a b : Identifier) : ordinal a = ordinal b -> a = b.
Proof. by destruct a, b. Qed.

Lemma same_type_eq (x y : Type_) :
  name_free x -> name_free y -> same_type x y = true <-> x = y.
Proof.
  revert y. induction x as [i|n|e IH n|e IH|a]; intros y Nx Ny.
  all: destruct y as [j|m|e' n'|e'|b]; simpl; try done.
  - unfold id_eqb. rewrite N.eqb_eq. split; [by intros ->%ordinal_inj|].
    by intros [= ->].
  - rewrite andb_true_iff, N.eqb_eq, (IH e') by done.
    split; [by intros [-> ->]|by intros [= -> ->]].
  - rewrite (IH e') by done. split; [by intros ->|by intros [= ->]].
  - rewrite String.eqb_eq. split; [by intros ->|by intros [= ->]].
Qed.

(** X5: on types without [ReferenceType] objects, whose class matches
    their identifier, [equal_to] is true of two types exactly when they
    are one and the same structure. *)
Theorem equal_to_structural (x y : Type_) :
  class_matches x = true -> class_matches y = true ->
  name_free x = true -> name_free y = true ->
  equal_to x y = Some true <-> x = y.
Proof.
  intros Hx%Is_true_eq Hy%Is_true_eq Nx%Is_true_eq Ny%Is_true_eq.
  rewrite equal_to_same_type by done.
  rewrite <- (same_type_eq x y) by done.
  split; [by intros [= ->]|by intros ->].
Qed.

Lemma equal_to_structural_witness :
  let x := ArrayType (PointerType (OpaqueType "it")) 3 in
  let y := ArrayType (PointerType (OpaqueType "it")) 4 in
  equal_to x y = Some true <-> x = y.
Proof.
  intros x y. apply (equal_to_structural x y); reflexivity.
Defined.

(** X6: [as_string] fails its assertion exactly on the types that hold a
    plain [Type] object with the identifier of a derived type. *)
Theorem as_string_fails_iff (utf8 : String -> string) (t : Type_) :
  as_string utf8 t = None <-> class_matches t = false.
Proof.
  induction t as [i|n|e IH n|e IH|a]; simpl.
  - by destruct i.
  - done.
  - rewrite <- IH. by destruct (as_string utf8 e).
  - rewrite <- IH. by destruct (as_string utf8 e).
  - done.
Qed.

(** *** Constants *)

(** X7: element constants compose: taking an element as many times as an
    array type is nested gives a constant of the innermost element type,
    every constructor's assertion holding on the way; the indices are
    not compared with the lengths. *)
Theorem elements_of_nested_array
  (indices lengths : list N) (e : Type_) (v : Value) :
  length indices = length lengths ->
  Value_type v = Some (arrays_of lengths e) ->
  Value_type (elements_at indices v) = Some e /\
  elements_asserted indices v = true.
Proof.
  revert lengths v.
  induction indices as [|i indices IH]; intros [|n lengths] v Hl Hv;
    try discriminate Hl.
  - done.
  - simpl in *. unfold new_ArrayElementConstant. rewrite Hv. simpl.
    apply (IH lengths); [lia|]. simpl. by rewrite Hv.
Qed.

Lemma elements_of_nested_array_witness :
  let v := NullConstant (ArrayType (ArrayType string_ 2) 3) in
  Value_type (elements_at [7%N; 9%N] v) = Some string_ /\
  elements_asserted [7%N; 9%N] v = true.
Proof.
  intros v.
  apply (elements_of_nested_array [7%N; 9%N] [3%N; 2%N] string_ v);
    reflexivity.
Defined.

(** *** Visitors *)

(** X8: an instruction visitor is called once by every instruction that
    is no meta instruction, on the member function that takes the
    instruction's class, and on no other; the two meta instructions call
    nothing. *)
Theorem Instruction_visit_dispatch :
  (forall c, Instruction_Visitor_visit c = Some [] <->
             superclass c = MetaInstruction) /\
  (forall c, Instruction_Visitor_visit c = None <-> c = PhiInstruction) /\
  (forall c ms, Instruction_Visitor_visit c = Some ms -> length ms <= 1) /\
  (forall m,
     Instruction_Visitor_visit (Instruction_Visitor_class m) = Some [m]) /\
  (forall c c' m,
     Instruction_Visitor_visit c = Some [m] ->
     Instruction_Visitor_visit c' = Some [m] -> c = c').
Proof.
  unfold Instruction_Visitor_visit. repeat split.
  - by destruct c.
  - by destruct c.
  - by destruct c.
  - by intros ->.
  - intros c ms. destruct c; intros [= <-]; simpl; lia.
  - by intros [].
  - intros c c' m Hc Hc'.
    destruct c; try discriminate Hc; injection Hc as <-;
      destruct c'; try discriminate Hc'; reflexivity.
Qed.

(** X9: [is_constant] is true of exactly the values a constant visitor
    accepts, and every member function of the visitor is reached. *)
Theorem Constant_visit_dispatch :
  (forall v, is_constant v = true <-> is_Some (Constant_accept v)) /\
  (forall m, exists v, Constant_accept v = Some m) /\
  (forall v, is_constant v = false <-> exists ty, v = InstructionValue ty).
Proof.
  repeat split.
  - destruct v; simpl; eauto; discriminate.
  - destruct v; simpl; try done; by intros [? ?].
  - intros m. destruct m.
    + by exists (ArrayElementConstant CalleeConstant 0).
    + by exists CalleeConstant.
    + by exists ReturnConstant.
    + by exists (NullConstant value).
    + by exists (BooleanConstant true).
    + by exists (DoubleConstant 0).
    + by exists (StringifiedDoubleConstant []).
    + by exists (StringConstant []).
    + by exists (ValueConstant VALUE_NOTHING).
  - destruct v; try discriminate; eauto.
  - by intros [ty ->].
Qed.

(** *** Throwing *)

Lemma string_length_app (a b : string) :
  String.length (a ++ b) = String.length a + String.length b.
Proof. induction a as [|c a IH]; simpl; [done|]. by rewrite IH. Qed.

(** X10: a DEBUG build throws what a release build throws, an error of
    the same class and name on the same context, but with the message
    prefixed by the file and the line of the throw, never the message
    itself. *)
Theorem ES_THROW_debug_prefix
  (file : string) (line : N) (T : runtime.ErrorClass)
  (msg : runtime.EsString) (s : runtime.EsContextStack) :
  s <> [] ->
  exists ctx ctx' e e',
    runtime.ES_THROW false file line T msg s = Some (ctx :: tail s) /\
    runtime.ES_THROW true file line T msg s = Some (ctx' :: tail s) /\
    runtime.pending_exception_ ctx = runtime.from_obj e /\
    runtime.pending_exception_ ctx' = runtime.from_obj e' /\
    runtime.class_ e' = runtime.class_ e /\
    runtime.name e' = runtime.name e /\
    runtime.message e = msg /\
    runtime.message e' = "[" ++ file ++ ":" ++ decimal line ++ "] " ++ msg /\
    runtime.message e' <> msg.
Proof.
  intros Hs. destruct s as [|c rest]; [done|].
  set (m' := "[" ++ file ++ ":" ++ decimal line ++ "] " ++ msg).
  exists (runtime.set_pending_exception
            (runtime.from_obj (runtime.create_inst T msg)) c),
         (runtime.set_pending_exception
            (runtime.from_obj (runtime.create_inst T m')) c),
         (runtime.create_inst T msg), (runtime.create_inst T m').
  assert (Hne : m' <> msg).
  { intros E. apply (f_equal String.length) in E. unfold m' in E.
    rewrite !string_length_app in E. simpl in E. lia. }
  repeat split; by destruct T.
Qed.

Lemma ES_THROW_debug_prefix_witness :
  let s := [runtime.mkEsContext runtime.nothing] in
  exists ctx ctx' e e',
    runtime.ES_THROW false "date.cc" 17 runtime.EsRangeError "bad time" s
      = Some (ctx :: tail s) /\
    runtime.ES_THROW true "date.cc" 17 runtime.EsRangeError "bad time" s
      = Some (ctx' :: tail s) /\
    runtime.pending_exception_ ctx = runtime.from_obj e /\
    runtime.pending_exception_ ctx' = runtime.from_obj e' /\
    runtime.class_ e' = runtime.class_ e /\
    runtime.name e' = runtime.name e /\
    runtime.message e = "bad time" /\
    runtime.message e'
      = "[" ++ "date.cc" ++ ":" ++ decimal 17 ++ "] " ++ "bad time" /\
    runtime.message e' <> "bad time".
Proof.
  intros s.
  apply (ES_THROW_debug_prefix "date.cc" 17 runtime.EsRangeError
           "bad time" s).
  discriminate.
Defined.

(** X11: a throw does not look at the exception already pending: after
    two throws the stack is as after the second alone. *)
Theorem es_throw_last_wins
  (T T' : runtime.ErrorClass) (m m' : runtime.EsString)
  (s : runtime.EsContextStack) :
  runtime.es_throw T' m' s ≫= runtime.es_throw T m = runtime.es_throw T m s.
Proof. by destruct s. Qed.

(** X12: the six native error classes have six names: the name of a
    native error tells its class. *)
Theorem native_error_names_distinct (m : runtime.EsString) :
  NoDup
    [runtime.name (runtime.new_EsEvalError m);
     runtime.name (runtime.new_EsRangeError m);
     runtime.name (runtime.new_EsReferenceError m);
     runtime.name (runtime.new_EsSyntaxError m);
     runtime.name (runtime.new_EsTypeError m);
     runtime.name (runtime.new_EsUriError m)].
Proof.
  simpl. unfold runtime._ESTR.
  repeat (constructor; [rewrite !list_elem_of_In; simpl;
                        intros H; repeat destruct H as [H|H]; done|]).
  constructor.
Qed.

(** *** Value-returning AST visitors *)

Section ValueVisitors.
Context {Node T P : Type}.
Variable kind : Node -> parser.Kind.

Lemma run_body_value
  (parse_ : parser.Kind -> Node -> P -> parser.Body Node T P)
  (fuel : nat) (b : parser.Body Node T P)
  (this : @parser.ValueVisitor1 T P) :
  (forall node param this0,
     fst <$> parser.parse kind parse_ fuel node param this0
     = parser.node_value kind parse_ fuel node param) ->
  fst <$> parser.run_body (parser.parse kind parse_ fuel) b this
  = parser.body_value (parser.node_value kind parse_ fuel) b.
Proof.
  intros IHf. revert this. induction b as [t|node param k IH]; intros this.
  - done.
  - simpl. rewrite <- (IHf node param this).
    destruct (parser.parse kind parse_ fuel node param this)
      as [[t this']|]; simpl; [apply IH|done].
Qed.

(** X13: [ValueVisitor1::parse] is re-entrant: although the parameter
    and the result travel through the members [param_] and [value_],
    which nested calls of [parse] overwrite, [parse] returns what the
    member function for the node's class returns on the parameter it was
    called with, and returns it exactly when that is defined. *)
Theorem ValueVisitor1_parse_reentrant
  (parse_ : parser.Kind -> Node -> P -> parser.Body Node T P)
  (fuel : nat) (node : Node) (param : P)
  (this : @parser.ValueVisitor1 T P) :
  fst <$> parser.parse kind parse_ fuel node param this
  = parser.node_value kind parse_ fuel node param.
Proof.
  revert node param this.
  induction fuel as [|fuel IH]; intros node param this; [done|].
  simpl. unfold parser.visit, parser.visit_. simpl.
  rewrite <- (run_body_value parse_ fuel
                (parse_ (kind node) node param)
                (parser.mkValueVisitor1 (parser.value_ this) param) IH).
  by destruct (parser.run_body _ _ _) as [[t this']|].
Qed.

(** After [parse] has returned, [value_] holds the value returned. *)
Lemma ValueVisitor1_parse_value
  (parse_ : parser.Kind -> Node -> P -> parser.Body Node T P)
  (fuel : nat) (node : Node) (param : P)
  (this this' : @parser.ValueVisitor1 T P) (t : T) :
  parser.parse kind parse_ fuel node param this = Some (t, this') ->
  parser.value_ this' = t.
Proof.
  destruct fuel as [|fuel]; [done|]. simpl.
  destruct (parser.visit _ _ _ _ _) as [this2|]; [|done].
  by intros [= <- <-].
Qed.

End ValueVisitors.

Section ValueVisitor0.
Context {Node T : Type}.
Variable kind : Node -> parser.Kind.
Variable parse_ : parser.Kind -> Node -> parser.Body Node T unit.

Lemma ValueVisitor_run_body_value
  (fuel : nat) (b : parser.Body Node T unit)
  (this : @parser.ValueVisitor T) :
  (forall node this0,
     fst <$> parser.ValueVisitor_parse kind parse_ fuel node this0
     = parser.node_value kind (fun k n _ => parse_ k n) fuel node tt) ->
  fst <$> parser.ValueVisitor_run_body
            (parser.ValueVisitor_parse kind parse_ fuel) b this
  = parser.body_value
      (parser.node_value kind (fun k n _ => parse_ k n) fuel) b.
Proof.
  intros IHf. revert this.
  induction b as [t|node [] k IH]; intros this; [done|].
  simpl. rewrite <- (IHf node this).
  destruct (parser.ValueVisitor_parse kind parse_ fuel node this)
    as [[t this']|]; simpl; [apply IH|done].
Qed.

(** X14: [ValueVisitor::parse] is re-entrant: nested calls of [parse]
    overwrite the member [value_], and still [parse] returns what the
    member function for the node's class returns, exactly when that is
    defined. *)
Theorem ValueVisitor_parse_reentrant
  (fuel : nat) (node : Node) (this : @parser.ValueVisitor T) :
  fst <$> parser.ValueVisitor_parse kind parse_ fuel node this
  = parser.node_value kind (fun k n _ => parse_ k n) fuel node tt.
Proof.
  revert node this.
  induction fuel as [|fuel IH]; intros node this; [done|].
  simpl. unfold parser.ValueVisitor_visit_.
  rewrite <- (ValueVisitor_run_body_value fuel (parse_ (kind node) node)
                this IH).
  by destruct (parser.ValueVisitor_run_body _ _ _) as [[t this']|].
Qed.

End ValueVisitor0.

(** *** The benchmark driver *)

(** X15: [main] returns 0 exactly when the runtime is initialised and the
    program then runs, both with success, and it writes one line to
    [std::cerr] otherwise; after a failed initialisation the program is
    not run, and the runtime is left as [init] left it. *)
Theorem main_status
  (Runtime : Type) (init run : Runtime -> bool * Runtime)
  (error : Runtime -> string) (r : Runtime) :
  let o := benchmark.main init run error r in
  (benchmark.status o = 0%N <->
   fst (init r) = true /\ fst (run (snd (init r))) = true) /\
  (benchmark.status o = 0%N \/ benchmark.status o = 1%N) /\
  length (benchmark.cerr o) = N.to_nat (benchmark.status o) /\
  benchmark.ran o = fst (init r) /\
  (fst (init r) = false ->
   benchmark.runtime_after o = snd (init r) /\
   benchmark.cerr o = [error (snd (init r))]) /\
  (fst (init r) = true ->
   benchmark.runtime_after o = snd (run (snd (init r))) /\
   (fst (run (snd (init r))) = false ->
    benchmark.cerr o = [error (snd (run (snd (init r))))])).
Proof.
  unfold benchmark.main.
  destruct (init r) as [[] r1]; simpl;
    [destruct (run r1) as [[] r2]; simpl|]; naive_solver.
Qed.

(** *** Built stores *)

Lemma replace_terminator_steps b t p h h' :
  heap_ok h -> replace_terminator b t h = Some (p, h') ->
  exists h2 old T,
    blocks_mapped (fun x Bx => after_pop b old T Bx x) h h2 /\
    heap_ok h2 /\ pushed h2 h' b p (instr_of b t).
Proof.
  intros Hok. unfold replace_terminator.
  intros (old & h1 & (-> & B & HB & Hlast)%last_instr_Some & H)%bind_Some.
  apply bind_Some in H as (T & h1 & [HT ->]%get_instr_Some & H).
  apply bind_Some in H as ([] & h1 & [Ht ->]%assert_Some & H).
  apply bind_Some in H as ([] & h1 & M1%remove_referrers_mapped & H).
  apply bind_Some in H as (B1 & h2 & [HB1 ->]%get_block_Some & H).
  apply bind_Some in H as ([] & h2 & H2 & H).
  unfold put_block in H2. injection H2 as <-.
  pose proof (set_block_mapped without_last b B1 h1 HB1) as M2.
  assert (M : blocks_mapped (fun x Bx => after_pop b old T Bx x) h
                (set_block b (without_last B1) h1)).
  { eapply blocks_mapped_ext; [|eapply blocks_mapped_trans; eauto].
    intros x Bx. simpl. unfold after_pop, without_last, without_referrer.
    repeat case_decide; by apply Block_eq. }
  destruct (popped_ok b old T B h _ Hok HB Hlast HT Ht M) as [Hok2 _].
  exists (set_block b (without_last B1) h1), old, T.
  split; [done|]. split; [done|]. by apply push_trm_pushed.
Qed.

Lemma removelast_lookup {A : Type} (l : list A) (k : nat) (x : A) :
  removelast l !! k = Some x -> l !! k = Some x.
Proof.
  revert k. induction l as [|a [|a' l] IH]; intros [|k]; try done.
  apply IH.
Qed.

Lemma pushed_placed_once h h' b p T :
  heap_ok h -> placed_once h -> pushed h h' b p T -> placed_once h'.
Proof.
  intros Hok Hu P.
  pose proof (pushed_ptr _ _ _ _ _ P) as Hp.
  assert (Hcase : forall x B' k q,
            blocks h' !! x = Some B' -> instrs_ B' !! k = Some q ->
            exists Bx, blocks h !! x = Some Bx /\
              ((instrs_ Bx !! k = Some q /\ q < p) \/
               (x = b /\ k = length (instrs_ Bx) /\ q = p))).
  { intros x B' k q (Bx & HBx & ->)%(pushed_block_inv _ _ _ _ _ _ _ P) Hk.
    exists Bx. split; [done|]. simpl in Hk.
    assert (Hold : instrs_ Bx !! k = Some q -> q < p).
    { intros Hq. rewrite Hp. apply (block_instr_bound h x Bx q Hok HBx).
      apply list_elem_of_lookup. eauto. }
    case_decide; [|auto]. subst x.
    apply lookup_app_Some in Hk as [Hk|[Hlen Hk]]; [auto|].
    apply list_lookup_singleton_Some in Hk as [Hk <-].
    right. repeat split; try done. unfold ptr in *. lia. }
  intros b1 B1 k1 b2 B2 k2 q HB1 Hk1 HB2 Hk2.
  destruct (Hcase _ _ _ _ HB1 Hk1) as (Bx1 & HBx1 & [[Hq1 Hlt1]|(-> & -> & ->)]);
    destruct (Hcase _ _ _ _ HB2 Hk2) as (Bx2 & HBx2 & [[Hq2 Hlt2]|(-> & -> & E)]);
    try lia.
  - by apply (Hu b1 Bx1 k1 b2 Bx2 k2 q).
  - assert (Bx2 = Bx1) as -> by congruence. done.
Qed.

Lemma popped_placed_once b old T h h' :
  placed_once h ->
  blocks_mapped (fun x Bx => after_pop b old T Bx x) h h' ->
  placed_once h'.
Proof.
  intros Hu (_ & _ & _ & L).
  assert (Hcase : forall x B' k q,
            blocks h' !! x = Some B' -> instrs_ B' !! k = Some q ->
            exists Bx, blocks h !! x = Some Bx /\ instrs_ Bx !! k = Some q).
  { intros x B' k q. rewrite L. intros (Bx & HBx & ->)%fmap_Some Hk.
    exists Bx. split; [done|]. simpl in Hk.
    case_decide; [by apply removelast_lookup|done]. }
  intros b1 B1 k1 b2 B2 k2 q HB1 Hk1 HB2 Hk2.
  destruct (Hcase _ _ _ _ HB1 Hk1) as (Bx1 & HBx1 & Hq1).
  destruct (Hcase _ _ _ _ HB2 Hk2) as (Bx2 & HBx2 & Hq2).
  by apply (Hu b1 Bx1 k1 b2 Bx2 k2 q).
Qed.

Lemma add_block_placed_once label h :
  heap_ok h -> placed_once h -> placed_once (add_block (next_ h) label h).
Proof.
  intros Hok Hu.
  assert (Hcase : forall x B' k q,
            blocks (add_block (next_ h) label h) !! x = Some B' ->
            instrs_ B' !! k = Some q -> blocks h !! x = Some B').
  { intros x B' k q. simpl. destruct (decide (x = next_ h)) as [->|Hne].
    - rewrite lookup_insert_eq. by intros [= <-].
    - by rewrite lookup_insert_ne. }
  intros b1 B1 k1 b2 B2 k2 q HB1 Hk1 HB2 Hk2.
  apply (Hu b1 B1 k1 b2 B2 k2 q); eauto.
Qed.

Lemma placed_once_ext h h' :
  blocks h' = blocks h -> placed_once h -> placed_once h'.
Proof. intros E Hu. unfold placed_once. by rewrite E. Qed.

Lemma call_placed_once c u h h' :
  heap_ok h -> placed_once h -> call c h = Some (u, h') -> placed_once h'.
Proof.
  intros Hok Hu. destruct c as [name g|label|f b|f b|b t|b t]; simpl.
  - intros (f & h1 & H & [_ ->]%ret_Some)%bind_Some.
    apply new_Function_Some in H as (-> & EB & _).
    apply (placed_once_ext (add_block (next_ h) "" h)); [done|].
    by apply add_block_placed_once.
  - intros (b & h1 & [-> ->]%new_Block_Some & [_ ->]%ret_Some)%bind_Some.
    by apply add_block_placed_once.
  - unfold push_block.
    intros (F & h1 & [HF ->]%get_function_Some & H)%bind_Some.
    unfold put_function in H. destruct u. injection H as <-.
    by apply (placed_once_ext h).
  - intros (p & h1 & H & [_ ->]%ret_Some)%bind_Some.
    eapply pushed_placed_once; [done|done|]. by eapply push_pushed.
  - intros (p & h1 & H & [_ ->]%ret_Some)%bind_Some.
    eapply pushed_placed_once; [done|done|]. by eapply push_trm_pushed.
  - intros (p & h1 & H & [_ ->]%ret_Some)%bind_Some.
    apply replace_terminator_steps in H as (h2 & old & T & M & Hok2 & P);
      [|done].
    eapply pushed_placed_once; [exact Hok2| |exact P].
    by eapply popped_placed_once.
Qed.

Lemma run_placed_once cs h h' :
  heap_ok h -> placed_once h -> run cs h = Some h' -> placed_once h'.
Proof.
  revert h. induction cs as [|c cs IH]; intros h Hok Hu; simpl.
  - by intros [= <-].
  - destruct (call c h) as [[u h1]|] eqn:Hc; [|done].
    apply IH; [by eapply call_ok|by eapply call_placed_once].
Qed.

(** X16: in a store built by the builder an instruction sits in one
    block, at one place: no instruction is shared by two blocks or
    pushed twice. *)
Theorem instruction_placed_once
  (cs : list Call) (h : Heap) (b1 b2 : ptr) (B1 B2 : Block)
  (k1 k2 : nat) (p : ptr) :
  run cs empty_heap = Some h ->
  blocks h !! b1 = Some B1 -> instrs_ B1 !! k1 = Some p ->
  blocks h !! b2 = Some B2 -> instrs_ B2 !! k2 = Some p ->
  b1 = b2 /\ k1 = k2.
Proof.
  intros Hrun. apply (run_placed_once cs empty_heap h empty_heap_ok);
    [|done].
  intros ? ? ? ? ? ? ? H. simpl in H. by rewrite lookup_empty in H.
Qed.

Lemma instruction_placed_once_witness :
  0 = 0 /\ 1 = 1.
Proof.
  apply (instruction_placed_once strict_then_ret strict_then_ret_heap
           0 0 strict_then_ret_entry strict_then_ret_entry 1 1 3);
    vm_compute; reflexivity.
Defined.

(** X17: [TerminateInstruction::block] of a terminator in a block of a
    built store is that block, and the terminator is the block's last
    instruction. *)
Theorem terminator_block_is_host
  (cs : list Call) (h : Heap) (b : ptr) (B : Block) (k : nat) (p : ptr)
  (T : Instruction) :
  run cs empty_heap = Some h ->
  blocks h !! b = Some B -> instrs_ B !! k = Some p ->
  instructions h !! p = Some T -> is_terminating (class_of T) = true ->
  host T = Some b /\ last (instrs_ B) = Some p.
Proof.
  intros Hok%run_empty_ok HB Hk HT Ht.
  destruct (ok_shape h Hok b B k p HB Hk) as (T' & HT' & Hl).
  assert (T' = T) as -> by congruence. destruct (Hl Ht) as [Hlen Hh].
  split; [done|]. rewrite last_lookup, <- Hk. f_equal. lia.
Qed.

Lemma terminator_block_is_host_witness :
  host (Ret 0 2) = Some 0 /\ last (instrs_ strict_then_ret_entry) = Some 3.
Proof.
  apply (terminator_block_is_host strict_then_ret strict_then_ret_heap
           0 strict_then_ret_entry 1 3 (Ret 0 2));
    vm_compute; reflexivity.
Defined.

(** X18: a referrer of a block of a built store is a branch or a jump
    that sits in a block and has the block as a target; a return or any
    other instruction is never a referrer. *)
Theorem referrer_is_branch_or_jump
  (cs : list Call) (h : Heap) (b' : ptr) (B' : Block) (p : ptr) :
  run cs empty_heap = Some h ->
  blocks h !! b' = Some B' -> p ∈ referrers_ B' ->
  exists T b B,
    instructions h !! p = Some T /\
    (class_of T = BranchInstruction \/ class_of T = JumpInstruction) /\
    b' ∈ targets T /\
    host T = Some b /\ blocks h !! b = Some B /\ last (instrs_ B) = Some p.
Proof.
  intros Hok%run_empty_ok HB Hp.
  destruct (ok_bwd h Hok b' B' p HB Hp)
    as (T & HT & Hb' & b & B & HBb & Hin).
  apply list_elem_of_lookup in Hin as (k & Hk).
  assert (Ht : is_terminating (class_of T) = true).
  { destruct T; simpl in *; try done. set_solver. }
  destruct (ok_shape h Hok b B k p HBb Hk) as (T' & HT' & Hl).
  assert (T' = T) as -> by congruence. destruct (Hl Ht) as [Hlen Hh].
  exists T, b, B. repeat split; try done.
  - destruct T; simpl in *; auto; set_solver.
  - rewrite last_lookup, <- Hk. f_equal. lia.
Qed.

Lemma referrer_is_branch_or_jump_witness :
  exists T b B,
    instructions branch_heap !! 4 = Some T /\
    (class_of T = BranchInstruction \/ class_of T = JumpInstruction) /\
    2 ∈ targets T /\
    host T = Some b /\ blocks branch_heap !! b = Some B /\
    last (instrs_ B) = Some 4.
Proof.
  apply (referrer_is_branch_or_jump (take 5 jump_then_replace) branch_heap
           2 branch_exit 4); [vm_compute; reflexivity..|].
  unfold branch_exit. simpl. apply elem_of_singleton_2. reflexivity.
Defined.

(** *** Maintaining the referrer sets *)









(** A jump pushed on the block "exit" of [branch_heap] becomes its last
    instruction and a referrer of its target, the entry block. *)
Example push_trm_registers_example :
  ('(p, h) ← push_trm 2 (trm_jmp 0) branch_heap;
   B ← blocks h !! 2; B' ← blocks h !! 0;
   Some (p, instrs_ B, elements (referrers_ B'))) = Some (5, [5], [5]).
Proof. vm_compute; reflexivity. Qed.

(** *** The order on types without reference names *)

Lemma type_order_structural (x y : Type_) :
  name_free x -> name_free y -> type_order x y = structural_order x y.
Proof.
  revert y. induction x as [i|n|e IH n|e IH|a]; intros y Nx Ny;
    destruct y as [j|m|e' n'|e'|b]; try done.
  - cbn [type_order structural_order]. by rewrite (IH e').
  - cbn [type_order structural_order]. by rewrite (IH e').
Qed.

(** C5: on types whose class matches their identifier and that hold no
    [ReferenceType] object, [less_than] is a strict total order:
    irreflexive, transitive, and exactly one of [x.less_than(y)],
    [y.less_than(x)], [x.equal_to(y)] holds, [equal_to] holding of
    identical types only; it orders first by identifier ordinal, then
    structurally ([structural_order]). *)
Theorem less_than_strict_total_order (x y z : Type_) :
  class_matches x = true -> class_matches y = true ->
  class_matches z = true ->
  name_free x = true -> name_free y = true -> name_free z = true ->
  less_than x x = Some false /\
  (less_than x y = Some true -> less_than y z = Some true ->
   less_than x z = Some true) /\
  exactly_one (less_than x y = Some true) (less_than y x = Some true)
              (equal_to x y = Some true) /\
  (equal_to x y = Some true <-> x = y) /\
  less_than x y = Some (is_Lt (structural_order x y)) /\
  (id_ltb (identifier x) (identifier y) = true ->
   less_than x y = Some true) /\
  (id_ltb (identifier y) (identifier x) = true ->
   less_than x y = Some false).
Proof.
  intros Hx%Is_true_eq Hy%Is_true_eq Hz%Is_true_eq.
  intros Nx%Is_true_eq Ny%Is_true_eq Nz%Is_true_eq.
  assert (Heq : equal_to x y = Some true <-> x = y).
  { rewrite equal_to_same_type by done.
    rewrite <- (same_type_eq x y) by done.
    split; [by intros [= ->]|by intros ->]. }
  rewrite <- (type_order_structural x y) by done.
  split; [|split; [|split; [|split; [done|]]]].
  - rewrite less_than_order by done.
    pose proof (type_order_antisym x x) as Hrefl.
    destruct (type_order x x); simpl in *; congruence.
  - rewrite !less_than_order by done.
    pose proof (type_order_trans x y z Hx Hy Hz) as Htr.
    intros [= E1] [= E2]. f_equal.
    destruct (type_order x y), (type_order y z); simpl in *; try done.
    by rewrite Htr.
  - rewrite !less_than_order, equal_to_order by done.
    rewrite (type_order_antisym x y). unfold exactly_one.
    destruct (type_order x y); simpl; [right; right|left|right; left];
      repeat split; congruence.
  - rewrite less_than_order by done. repeat split.
    + intros Hlt. f_equal. cbv [id_ltb N.ltb] in Hlt.
      destruct x, y; cbn [type_order identifier] in *;
        by destruct (_ ?= _)%N.
    + intros Hlt. f_equal. cbv [id_ltb N.ltb] in Hlt.
      rewrite N.compare_antisym in Hlt.
      destruct x, y; cbn [type_order identifier] in *;
        by destruct (_ ?= _)%N.
Qed.

Lemma less_than_strict_total_order_witness :
  let x := ArrayType value 2 in
  let y := ArrayType value 3 in
  let z := PointerType (OpaqueType "iterator") in
  less_than x x = Some false /\
  (less_than x y = Some true -> less_than y z = Some true ->
   less_than x z = Some true) /\
  exactly_one (less_than x y = Some true) (less_than y x = Some true)
              (equal_to x y = Some true) /\
  (equal_to x y = Some true <-> x = y) /\
  less_than x y = Some (is_Lt (structural_order x y)) /\
  (id_ltb (identifier x) (identifier y) = true ->
   less_than x y = Some true) /\
  (id_ltb (identifier y) (identifier x) = true ->
   less_than x y = Some false).
Proof.
  intros x y z. apply (less_than_strict_total_order x y z); reflexivity.
Defined.

(** Where [less_than] is no total order. On a plain [Type] object with
    [ID_ARRAY] the cast of [ArrayType::less_than] and of
    [ArrayType::equal_to] is not defined, and none of the three holds.
    Two reference types with the names "a" and "b" are not the same
    type, and neither is less than the other. *)
Lemma less_than_not_total :
  (less_than (ArrayType value 2) (Type_base ID_ARRAY) = None /\
   less_than (Type_base ID_ARRAY) (ArrayType value 2) = Some false /\
   equal_to (ArrayType value 2) (Type_base ID_ARRAY) = None /\
   ~ exactly_one
       (less_than (ArrayType value 2) (Type_base ID_ARRAY) = Some true)
       (less_than (Type_base ID_ARRAY) (ArrayType value 2) = Some true)
       (equal_to (ArrayType value 2) (Type_base ID_ARRAY) = Some true)) /\
  (same_type (ReferenceType [97%N]) (ReferenceType [98%N]) = false /\
   structural_order (ReferenceType [97%N]) (ReferenceType [98%N]) = Lt /\
   less_than (ReferenceType [97%N]) (ReferenceType [98%N]) = Some false /\
   less_than (ReferenceType [98%N]) (ReferenceType [97%N]) = Some false).
Proof.
  split; [|repeat split].
  repeat split. unfold exactly_one. simpl.
  intros [(H & _)|[(_ & H & _)|(_ & _ & H)]]; discriminate H.
Qed.
